(** * tspeg-lib: the JPEG parsing substrate, embedded and checked

    The development follows the repository's layout:
    - [Js]       : the host operations the TypeScript relies on (32-bit
                   bitwise operators, truthiness, thrown errors);
    - [Generic]  : [src/utils/generic.ts], the [BitStream] cursor;
    - [NodeBuffer] : the reads of Node's [Buffer] that the markers call;
    - [ZigZag]   : the [ToZigZag] reordering;
    - [Markers]  : [src/jpeg/markers/base.ts] and the SOI / EOI markers;
    - [Huffman]  : [HuffmanNode] and [JPEGHuffmanTree].

    Every TypeScript method that mutates [this] is a function from the
    object's state to a [result] carrying the returned value and the new
    state; a [throw] is the [Throw] constructor. *)

From stdpp Require Import gmap list strings.
From Stdlib Require Import ZArith Lia Bool Strings.Byte.

Open Scope Z_scope.

(* ===================================================================== *)
(** ** Host semantics *)
(* ===================================================================== *)

Module Js.

(** The errors the code throws, named by the tag of their message, and the
    two host errors ([RangeError], [TypeError]) that Node raises by itself. *)
Inductive error : Set :=
| IndexOverflow       (* [BitStream:getNextBit:IndexOverflow]   *)
| BufferOverflow      (* [BitStream:readBytes:BufferOverflow]   *)
| MaxIntegerReached   (* [BitStream:readBytes:MaxIntegerReached] *)
| InvalidDimension    (* [ToZigZag:InvalidDimension]            *)
| NoSuchRecordKey     (* getMarker:NoSuchRecordKey              *)
| InvalidInput        (* [HuffmanNode:setNextNode:InvalidInput] *)
| AlreadyExists       (* [HuffmanNode:setSymbol:AlreadyExists]  *)
| NotAvailable        (* JPGMarker:decode:NotAvailable          *)
| RangeError          (* Buffer read outside the buffer         *)
| TypeError.          (* property write on [undefined]          *)

Inductive result (A : Type) : Type :=
| Ok (a : A)
| Throw (e : error).
Arguments Ok {A} a.
Arguments Throw {A} e.

Definition bind {A B} (r : result A) (k : A -> result B) : result B :=
  match r with
  | Ok a => k a
  | Throw e => Throw e
  end.

Definition is_ok {A} (r : result A) : bool :=
  match r with Ok _ => true | Throw _ => false end.

(** ToInt32: the wrap-around every bitwise operator applies to its operands. *)
Definition int32 (z : Z) : Z := (z + 2 ^ 31) mod 2 ^ 32 - 2 ^ 31.

Definition shl (a k : Z) : Z := int32 (Z.shiftl (int32 a) (k mod 32)).
Definition sar (a k : Z) : Z := Z.shiftr (int32 a) (k mod 32).
Definition bor (a b : Z) : Z := Z.lor (int32 a) (int32 b).
Definition band (a b : Z) : Z := Z.land (int32 a) (int32 b).
Definition bxor (a b : Z) : Z := Z.lxor (int32 a) (int32 b).

Definition bnot (a : Z) : Z := Z.lnot (int32 a).

Definition MAX_SAFE_INTEGER : Z := 2 ^ 53 - 1.

(** A value read from an array or a nullable field: a number, [null], or
    [undefined] (what an out-of-range array read gives). *)
Inductive value : Set :=
| Null
| Undefined
| Num (n : Z).

(** [if (v)]: [null], [undefined] and the number [0] are falsy. *)
Definition truthy (v : value) : bool :=
  match v with
  | Num n => negb (n =? 0)
  | Null | Undefined => false
  end.

(** [v != null] (loose inequality: [undefined == null]). *)
Definition not_nullish (v : value) : bool :=
  match v with
  | Num _ => true
  | Null | Undefined => false
  end.

(** [xs[i]] for a numeric index. *)
Definition index {A} (xs : list A) (i : Z) : option A :=
  if i <? 0 then None else nth_error xs (Z.to_nat i).

Definition index_value (xs : list Z) (i : Z) : value :=
  match index xs i with
  | Some n => Num n
  | None => Undefined
  end.

End Js.

Export Js.

Notation "'do' p <- e ; k" := (bind e (fun p => k))
  (at level 10, p pattern, e at level 100, k at level 200).

(* ===================================================================== *)
(** ** src/utils/generic.ts : BitStream *)
(* ===================================================================== *)

Module Generic.

(** [class BitStream extends Buffer]: the inherited bytes and the three
    private fields, which start at 0. *)
Record BitStream : Set := mkBitStream {
  bytes       : list byte;
  position    : Z;
  currByte    : Z;
  byteCounter : Z
}.

(** A [BitStream] instance over the bytes of [buffer], before any call:
    the three fields hold the 0 their initialisers give them. *)
Definition initial (buffer : list byte) : BitStream := mkBitStream buffer 0 0 0.

(** [this.length] *)
Definition length_ (s : BitStream) : Z := Z.of_nat (length (bytes s)).

Definition byte_val (b : byte) : Z := Z.of_N (Byte.to_N b).

(** [super.readUInt8(offset)]: Buffer's own read, a [RangeError] outside
    [0 .. length - 1]. *)
Definition super_readUInt8 (s : BitStream) (offset : Z) : result Z :=
  match index (bytes s) offset with
  | Some b => Ok (byte_val b)
  | None => Throw RangeError
  end.

(** [getNextBit()] *)
Definition getNextBit (s : BitStream) : result (Z * BitStream) :=
  do s1 <- (if byteCounter s =? 0 then
              if position s + 1 >=? length_ s then Throw IndexOverflow
              else
                let p := position s + 1 in
                do b <- super_readUInt8 s p ;
                Ok (mkBitStream (bytes s) p b 8)
            else Ok s) ;
  let bit := sar (currByte s1) 7 in
  Ok (bit, mkBitStream (bytes s1) (position s1)
                       (band (shl (currByte s1) 1) 255)
                       (byteCounter s1 - 1)).

(** The body of the [for] loop of [readBytes], [iters] iterations from [idx]. *)
Fixpoint readBytes_loop (s : BitStream) (curr_position wrap : Z) (le : bool)
    (iters : nat) (idx curr_result : Z) : result Z :=
  match iters with
  | O => Ok curr_result
  | S iters' =>
      let position := (if le then 1 else -1) * (wrap - idx) in
      do b <- super_readUInt8 s (curr_position + position) ;
      let curr_result := bor (shl curr_result 8) b in
      if curr_result >? MAX_SAFE_INTEGER then Throw MaxIntegerReached
      else readBytes_loop s curr_position wrap le iters' (idx + 1) curr_result
  end.

(** [offset ? a : b]: an omitted offset and the offset 0 are both falsy. *)
Definition offset_truthy (offset : option Z) : bool :=
  match offset with
  | Some o => negb (o =? 0)
  | None => false
  end.

(** Where a read starts: [offset ?? this.position]. *)
Definition curr_position_of (offset : option Z) (s : BitStream) : Z :=
  match offset with Some o => o | None => position s end.

(** [readBytes(n, offset?, le = false)] *)
Definition readBytes (n : Z) (offset : option Z) (le : bool) (s : BitStream)
    : result (Z * BitStream) :=
  let curr_position := curr_position_of offset s in
  if curr_position + n >=? length_ s then Throw BufferOverflow
  else
    let wrap := if le then n - 1 else 0 in
    do curr_result <- readBytes_loop s curr_position wrap le (Z.to_nat n) 0 0 ;
    let position' := if offset_truthy offset then position s else position s + n in
    Ok (curr_result,
        mkBitStream (bytes s) position' (currByte s) (byteCounter s)).

(** [getNextUInt8()] *)
Definition getNextUInt8 (s : BitStream) : result (Z * BitStream) :=
  readBytes 1 (Some (position s)) false s.

(** [readUInt8(offset?)] and [readUInt16BE(offset?)], the overrides. *)
Definition readUInt8 (offset : option Z) (s : BitStream) : result (Z * BitStream) :=
  readBytes 1 offset false s.

Definition readUInt16BE (offset : option Z) (s : BitStream) : result (Z * BitStream) :=
  readBytes 2 offset false s.

(** A driver that performs [k] sequential [getNextBit] calls and collects
    the bits; it stops at the first error. *)
Fixpoint readBits (k : nat) (s : BitStream) : result (list Z * BitStream) :=
  match k with
  | O => Ok ([], s)
  | S k' =>
      do (b, s1) <- getNextBit s ;
      do (bs, s2) <- readBits k' s1 ;
      Ok (b :: bs, s2)
  end.

(** The eight bits of a byte, most significant first. *)
Definition byte_bits (b : byte) : list Z :=
  map (fun i => if Z.testbit (byte_val b) i then 1 else 0) [7; 6; 5; 4; 3; 2; 1; 0].

(** [SplitByte(value, size = 4)] *)
Definition SplitByte (value size : Z) : Z * Z :=
  let value1 := sar value size in
  let value2 := band value (bnot (shl value1 size)) in
  (value1, value2).

(** [super.readUInt16BE(offset)]: Buffer's own big-endian read of two
    bytes, a [RangeError] unless both lie inside the buffer. *)
Definition super_readUInt16BE (s : BitStream) (offset : Z) : result Z :=
  match index (bytes s) offset, index (bytes s) (offset + 1) with
  | Some first, Some last => Ok (byte_val first * 2 ^ 8 + byte_val last)
  | _, _ => Throw RangeError
  end.

(** [getNextUInt16BE()] *)
Definition getNextUInt16BE (s : BitStream) : result (Z * BitStream) :=
  do v <- super_readUInt16BE s (position s) ;
  Ok (v, s).

(** The byte at an index, as a number; 0 outside the buffer. *)
Definition byte_at (s : BitStream) (i : Z) : Z :=
  match index (bytes s) i with
  | Some b => byte_val b
  | None => 0
  end.

(** The bytes [from, from + 1, ...] of a stream, [count] of them. *)
Definition bytes_from (s : BitStream) (start : Z) (count : nat) : list Z :=
  map (fun i => byte_at s (start + Z.of_nat i)) (seq 0 count).

(** The number a list of bytes spells, first byte most significant, and
    first byte least significant. *)
Definition be_value (bs : list Z) : Z := fold_left (fun acc b => acc * 256 + b) bs 0.
Definition le_value (bs : list Z) : Z := fold_right (fun b acc => b + 256 * acc) 0 bs.

(** What the bit reads rely on: a counter within a byte and a current
    byte of eight bits. *)
Definition bit_state_ok (s : BitStream) : Prop :=
  0 <= byteCounter s <= 8 /\ 0 <= currByte s < 256.

End Generic.

(* ===================================================================== *)
(** ** Node's Buffer, as the marker code uses it *)
(* ===================================================================== *)

Module NodeBuffer.

Import Generic.

(** [BitStream.from(buffer)].  [BitStream] declares no static [from], so
    the call is the inherited [Buffer.from]: it returns a plain [Buffer]
    holding the bytes, not a [BitStream].  The object has none of
    [BitStream]'s methods, and [readUInt8] and [readUInt16BE] on it are
    Buffer's own reads.  A plain [Buffer] is its list of bytes. *)
Definition Buffer_from (buffer : list byte) : list byte := buffer.

(** [b.length] *)
Definition Buffer_length (b : list byte) : Z := Z.of_nat (length b).

(** [b.readUInt8(offset)]: a [RangeError] outside [0 .. length - 1]. *)
Definition Buffer_readUInt8 (b : list byte) (offset : Z) : result Z :=
  match index b offset with
  | Some x => Ok (byte_val x)
  | None => Throw RangeError
  end.

(** [b.readUInt16BE(offset)]: big-endian, a [RangeError] unless both bytes
    lie inside the buffer. *)
Definition Buffer_readUInt16BE (b : list byte) (offset : Z) : result Z :=
  match index b offset, index b (offset + 1) with
  | Some first, Some last => Ok (byte_val first * 2 ^ 8 + byte_val last)
  | _, _ => Throw RangeError
  end.

(** [b.subarray(begin)]: the view from [begin] to the end, again a plain
    [Buffer]; a negative [begin] counts from the end, and both are clamped. *)
Definition Buffer_subarray (b : list byte) (begin : Z) : list byte :=
  let len := Buffer_length b in
  let start := if begin <? 0 then Z.max (len + begin) 0 else Z.min begin len in
  drop (Z.to_nat start) b.

(** The byte at an index, as a number; 0 outside the buffer. *)
Definition Buffer_at (b : list byte) (i : Z) : Z :=
  match index b i with
  | Some x => byte_val x
  | None => 0
  end.

End NodeBuffer.

(* ===================================================================== *)
(** ** ToZigZag *)
(* ===================================================================== *)

Module ZigZag.

(** A JavaScript array of numbers: its elements, and the properties that a
    write under a negative key adds to the object without touching the
    elements. *)
Record jsarray : Set := mkArray {
  elems : list value;
  props : list (Z * value)
}.

(** [row[c] = v]: inside the array the element is replaced, past its end
    the array grows (the holes read as [undefined]), and a negative [c] is
    an ordinary property. *)
Definition array_set (row : jsarray) (c : Z) (v : value) : jsarray :=
  if c <? 0 then mkArray (elems row) ((c, v) :: props row)
  else
    let i := Z.to_nat c in
    if (i <? length (elems row))%nat
    then mkArray (<[i := v]> (elems row)) (props row)
    else mkArray (elems row ++ repeat Undefined (i - length (elems row)) ++ [v])
                 (props row).

(** [zigzag[r][c] = v]: [zigzag[r]] is [undefined] outside the matrix, and
    writing a property of [undefined] is a [TypeError]. *)
Definition matrix_set (zigzag : list jsarray) (r c : Z) (v : value)
    : result (list jsarray) :=
  match index zigzag r with
  | Some row => Ok (<[Z.to_nat r := array_set row c v]> zigzag)
  | None => Throw TypeError
  end.

(** The local variables of [ToZigZag] that the loops update. *)
Record locals : Set := mkLocals {
  zigzag         : list jsarray;
  direction      : Z;
  element_idx    : Z;
  drop_down_cnt  : Z;
  drop_down_flag : Z;
  curr_position  : Z * Z;
  last_curr_pos  : Z * Z
}.

(** The inner [for] over one diagonal, [iters] iterations. *)
Fixpoint diagonal_loop (values : list Z) (iters : nat) (st : locals) : result locals :=
  match iters with
  | O => Ok st
  | S iters' =>
      let '(r, c) := curr_position st in
      do zz <- matrix_set (zigzag st) r c (index_value values (element_idx st)) ;
      diagonal_loop values iters'
        (mkLocals zz (direction st) (element_idx st + 1)
                  (drop_down_cnt st) (drop_down_flag st)
                  (r - direction st, c + direction st)
                  (curr_position st))
  end.

(** One iteration of the outer [for], for the diagonal [diag_sum]. *)
Definition diagonal_step (values : list Z) (min_dimension diag_sum : Z) (st : locals)
    : result locals :=
  let flag :=
    if (diag_sum >? min_dimension) && (drop_down_flag st =? 0) then 1
    else drop_down_flag st in
  let '(r, c) := curr_position st in
  let pos :=
    if negb (bxor (if direction st >? 0 then 1 else 0) flag =? 0)
    then (r, c + 1) else (r + 1, c) in
  do st1 <- diagonal_loop values
              (Z.to_nat (diag_sum + 1 - flag * drop_down_cnt st))
              (mkLocals (zigzag st) (direction st) (element_idx st)
                        (drop_down_cnt st) flag pos (last_curr_pos st)) ;
  let direction' := if Z.even (diag_sum + 1) then 1 else -1 in
  let cnt' :=
    if diag_sum >? min_dimension then drop_down_cnt st1 + 2 else drop_down_cnt st1 in
  Ok (mkLocals (zigzag st1) direction' (element_idx st1) cnt'
               (drop_down_flag st1) (last_curr_pos st1) (last_curr_pos st1)).

(** The outer [for], [iters] iterations from [diag_sum]. *)
Fixpoint diagonals_loop (values : list Z) (min_dimension : Z) (iters : nat)
    (diag_sum : Z) (st : locals) : result locals :=
  match iters with
  | O => Ok st
  | S iters' =>
      do st1 <- diagonal_step values min_dimension diag_sum st ;
      diagonals_loop values min_dimension iters' (diag_sum + 1) st1
  end.

(** [ToZigZag(values, nr, nc)].  [Array(nc)] is reached only when
    [values.length === nr * nc], so [nc] is not negative there. *)
Definition ToZigZag (values : list Z) (nr nc : Z) : result (list jsarray) :=
  if negb (Z.of_nat (length values) =? nr * nc) then Throw InvalidDimension
  else
    let zigzag0 :=
      repeat (mkArray (repeat (Num 0) (Z.to_nat nc)) []) (Z.to_nat nr) in
    let min_dimension := Z.min (nr - 1) (nc - 1) in
    let drop_down_cnt := if Z.rem min_dimension 2 =? 0 then 1 else 2 in
    do zigzag1 <- matrix_set zigzag0 0 0 (index_value values 0) ;
    do st <- diagonals_loop values min_dimension
               (Z.to_nat ((nr - 1) + (nc - 1) + 1)) 0
               (mkLocals zigzag1 (-1) 0 drop_down_cnt 0 (0, 0) (0, 0)) ;
    Ok (zigzag st).

(** The rows of a returned matrix, as plain lists. *)
Definition rows (m : list jsarray) : list (list value) := map elems m.

(** The matrix of the EXAMPLE in [ToZigZag]'s documentation. *)
Definition documented_3x4 : list (list value) :=
  map (map Num) [[1; 2; 6; 7]; [3; 5; 8; 11]; [4; 9; 10; 12]].

(** Modelled from the spec: the forward zigzag scan, which the repository
    does not implement.  Diagonal [d] holds the cells [(r, c)] with
    [r + c = d]; odd diagonals run down-left (row increasing), even ones
    up-right, as in the 3x4 example of [ToZigZag]'s documentation. *)
Definition diagonal_cells (nr nc d : nat) : list (nat * nat) :=
  omap (fun r => if (r <=? d)%nat && (d - r <? nc)%nat
                 then Some (r, (d - r)%nat) else None)
       (seq 0 nr).

Definition scan_order (nr nc : nat) : list (nat * nat) :=
  flat_map (fun d => if Nat.even d then rev (diagonal_cells nr nc d)
                     else diagonal_cells nr nc d)
           (seq 0 (nr + nc - 1)).

Definition cell (m : list (list value)) (rc : nat * nat) : value :=
  match nth_error m (fst rc) with
  | Some row => match nth_error row (snd rc) with
                | Some v => v
                | None => Undefined
                end
  | None => Undefined
  end.

Definition zigzag_scan (m : list (list value)) (nr nc : nat) : list value :=
  map (cell m) (scan_order nr nc).

End ZigZag.

(* ===================================================================== *)
(** ** src/jpeg/markers/base.ts and the SOI / EOI markers *)
(* ===================================================================== *)

Module Markers.

Import Generic.
Import NodeBuffer.

(** [COMMON_MARKERS] *)
Definition SOI_MARKER  : Z := 0xFFD8.
Definition APP0_MARKER : Z := 0xFFE0.
Definition DQT_MARKER  : Z := 0xFFDB.
Definition DHT_MARKER  : Z := 0xFFC4.
Definition SOS_MARKER  : Z := 0xFFDA.
Definition DNL_MARKER  : Z := 0xFFDC.
Definition EOI_MARKER  : Z := 0xFFD9.

(** The fields of [JPGMarker].  [buffer] is declared a [BitStream] and
    holds what [BitStream.from] returns, a plain [Buffer]. *)
Record JPGMarker : Set := mkJPGMarker {
  name   : string;
  code   : Z;
  length : Z;
  buffer : list byte
}.

(** [JPGMarker]'s constructor. *)
Definition JPGMarker_new (name : string) (code : Z) (buffer : list byte)
    : result JPGMarker :=
  let buffer := Buffer_from buffer in
  if Buffer_length buffer >=? 4 then
    do v <- Buffer_readUInt16BE buffer 2 ;
    Ok (mkJPGMarker name code (v + 2) buffer)
  else Ok (mkJPGMarker name code 2 buffer).

(** [get markerLength()] *)
Definition markerLength (m : JPGMarker) : Z := length m.

Definition set_length (m : JPGMarker) (l : Z) : JPGMarker :=
  mkJPGMarker (name m) (code m) l (buffer m).

(** [JPEG_SOIMarker]: [decodeSync] and the constructor. *)
Definition JPEG_SOIMarker_decodeSync (m : JPGMarker) : JPGMarker := set_length m 2.

Definition JPEG_SOIMarker (buffer : list byte) : result JPGMarker :=
  do m <- JPGMarker_new "SOI - Start Of Image" SOI_MARKER buffer ;
  Ok (JPEG_SOIMarker_decodeSync m).

(** [JPEG_EOIMarker] *)
Definition JPEG_EOIMarker_decodeSync (m : JPGMarker) : JPGMarker := set_length m 2.

Definition JPEG_EOIMarker (buffer : list byte) : result JPGMarker :=
  do m <- JPGMarker_new "EOI - End Of Image" EOI_MARKER buffer ;
  Ok (JPEG_EOIMarker_decodeSync m).

(** [abstract class JPG_TableMarker extends JPGMarker]: a table marker is a
    [JPGMarker] with two more getters. *)
Class JPG_TableMarker (T : Type) := {
  to_marker   : T -> JPGMarker;
  identifier  : T -> Z;
  destination : T -> Z
}.

Section TableMarkerAggregator.

Context {T : Type} `{JPG_TableMarker T}.

(** The constructor handed to the aggregator.  Its parameter is declared a
    [BitStream]; what [addMarker] passes is the plain [Buffer] that
    [subarray] returns. *)
Variable markerConstructor : list byte -> result T.

(** The fields of [TableMarkerAggregator]: the record of markers, keyed by
    a number, and the counter [size]. *)
Record Aggregator : Type := mkAggregator {
  markers : gmap Z T;
  size    : Z
}.

Definition empty_aggregator : Aggregator := mkAggregator ∅ 0.

(** The [while (length > 0)] loop of [addMarker].  [None] is "still
    running when the fuel ran out"; otherwise the aggregator as the loop
    left it, and the returned position or the error that escaped. *)
Fixpoint addMarker_loop (fuel : nat) (bbuffer : list byte) (agg : Aggregator)
    (length current_pos : Z) (start_buffer : list byte)
    : option (Aggregator * result Z) :=
  if length >? 0 then
    match fuel with
    | O => None
    | S fuel' =>
        match markerConstructor start_buffer with
        | Throw e => Some (agg, Throw e)
        | Ok marker =>
            let agg' :=
              mkAggregator (<[identifier marker := marker]> (markers agg))
                           (size agg + 1) in
            let length' := length - (markerLength (to_marker marker) - 4) in
            let current_pos' := current_pos + markerLength (to_marker marker) - 4 in
            addMarker_loop fuel' bbuffer agg' length' current_pos'
                           (Buffer_subarray bbuffer current_pos')
        end
    end
  else Some (agg, Ok current_pos).

(** [addMarker(buffer)] *)
Definition addMarker (fuel : nat) (agg : Aggregator) (buffer : list byte)
    : option (Aggregator * result Z) :=
  let bbuffer := Buffer_from buffer in
  let position := 2 in
  match Buffer_readUInt16BE bbuffer position with
  | Throw e => Some (agg, Throw e)
  | Ok v =>
      let length := v - 2 in
      let current_pos := position + 2 in
      addMarker_loop fuel bbuffer agg length current_pos
                     (Buffer_subarray bbuffer current_pos)
  end.

(** [get nofMarkers()] *)
Definition nofMarkers (agg : Aggregator) : Z := size agg.

(** [getMarker(identifier)] *)
Definition getMarker (agg : Aggregator) (identifier : Z) : result T :=
  match markers agg !! identifier with
  | Some m => Ok m
  | None => Throw NoSuchRecordKey
  end.

End TableMarkerAggregator.

Arguments Aggregator T : clear implicits.

(** Three table markers to drive the aggregator with.  Each calls the
    [JPGMarker] constructor on its own bytes and then fixes its length, as
    [JPEG_SOIMarker] does.

    [PairTable]: a sub-table of two bytes, slot and payload, that reports
    a length of 6 and so moves the aggregator on by two bytes. *)
Record PairTable : Set := mkPairTable {
  pair_marker  : JPGMarker;
  pair_slot    : Z;
  pair_payload : Z
}.

#[export] Instance PairTable_marker : JPG_TableMarker PairTable :=
  {| to_marker := pair_marker; identifier := pair_slot; destination := pair_slot |}.

Definition PairTable_new (b : list byte) : result PairTable :=
  match b with
  | slot :: payload :: _ =>
      do m <- JPGMarker_new "pair table" DHT_MARKER [slot; payload] ;
      Ok (mkPairTable (set_length m 6) (byte_val slot) (byte_val payload))
  | _ => Throw RangeError
  end.

(** [SelfSizedTable]: a sub-table whose first byte is the length it reports. *)
Record SelfSizedTable : Set := mkSelfSizedTable {
  self_marker : JPGMarker;
  self_slot   : Z
}.

#[export] Instance SelfSizedTable_marker : JPG_TableMarker SelfSizedTable :=
  {| to_marker := self_marker; identifier := self_slot; destination := self_slot |}.

Definition SelfSizedTable_new (b : list byte) : result SelfSizedTable :=
  match b with
  | len :: _ =>
      do m <- JPGMarker_new "self-sized table" DQT_MARKER [len] ;
      Ok (mkSelfSizedTable (set_length m (byte_val len)) (byte_val len))
  | _ => Throw RangeError
  end.

(** [EmptyTable]: a sub-table without content, which reports the bare
    overhead of 4 whatever it is given. *)
Record EmptyTable : Set := mkEmptyTable {
  empty_marker : JPGMarker
}.

#[export] Instance EmptyTable_marker : JPG_TableMarker EmptyTable :=
  {| to_marker := empty_marker; identifier := fun _ => 0; destination := fun _ => 0 |}.

Definition EmptyTable_new (b : list byte) : result EmptyTable :=
  do m <- JPGMarker_new "empty table" DQT_MARKER [] ;
  Ok (mkEmptyTable (set_length m 4)).

(** [JPEG_APP0Marker]: the marker it extends and its own fields. *)
Record JPEG_APP0Marker : Set := mkAPP0 {
  app0_marker     : JPGMarker;
  app0_identifier : string;
  version         : Z;
  units           : Z;
  x_density       : Z;
  y_density       : Z;
  x_thumbnail     : Z;
  y_thumbnail     : Z;
  rgb_n           : list (Z * Z * Z)
}.

(** The [for] over the RGB triplets, from [byte_idx] while it is below
    [bound].  The index grows by 3 each turn, so [bound - 18] turns of fuel
    are never used up before the test fails. *)
Fixpoint rgb_loop (fuel : nat) (bound byte_idx : Z) (b : list byte)
    (rgb : list (Z * Z * Z)) : result (list (Z * Z * Z)) :=
  match fuel with
  | O => Ok rgb
  | S fuel' =>
      if byte_idx <? bound then
        do red_value <- Buffer_readUInt8 b byte_idx ;
        do green_value <- Buffer_readUInt8 b (byte_idx + 1) ;
        do blue_value <- Buffer_readUInt8 b (byte_idx + 2) ;
        rgb_loop fuel' bound (byte_idx + 3) b
                 (rgb ++ [(red_value, green_value, blue_value)])
      else Ok rgb
  end.

(** [JPEG_APP0Marker.decodeSync()] *)
Definition JPEG_APP0Marker_decodeSync (m : JPEG_APP0Marker) : result JPEG_APP0Marker :=
  let base := app0_marker m in
  let b := buffer base in
  do version <- Buffer_readUInt16BE b 9 ;
  do units <- Buffer_readUInt8 b 11 ;
  do x_density <- Buffer_readUInt16BE b 12 ;
  do y_density <- Buffer_readUInt16BE b 14 ;
  do x_thumbnail <- Buffer_readUInt8 b 16 ;
  do y_thumbnail <- Buffer_readUInt8 b 17 ;
  do rgb <- rgb_loop (Z.to_nat (length base - 2 - 18)) (length base - 2) 18 b
                     (rgb_n m) ;
  Ok (mkAPP0 base (app0_identifier m) version units x_density y_density
             x_thumbnail y_thumbnail rgb).

(** [new JPEG_APP0Marker(buffer)], through [JPEG_APPnMarker]'s constructor. *)
Definition JPEG_APP0Marker_new (buffer : list byte) : result JPEG_APP0Marker :=
  do base <- JPGMarker_new "APPn - Applicaion Marker" APP0_MARKER buffer ;
  JPEG_APP0Marker_decodeSync (mkAPP0 base "JFIF" 0 0 0 0 0 0 []).

(** The RGB triplet number [k] of a thumbnail palette that starts at byte
    18, and the number of triplets read for a declared segment length: one
    for every started group of three bytes between byte 18 and the declared
    length. *)
Definition triplet_at (b : list byte) (k : nat) : Z * Z * Z :=
  (Buffer_at b (18 + 3 * Z.of_nat k),
   Buffer_at b (18 + 3 * Z.of_nat k + 1),
   Buffer_at b (18 + 3 * Z.of_nat k + 2)).

Definition triplet_count (declared : Z) : nat := Z.to_nat ((declared - 18 + 2) / 3).

(** The length field of a segment: the big-endian value of the bytes 2
    and 3. *)
Definition declared_length (b : list byte) : Z :=
  256 * Buffer_at b 2 + Buffer_at b 3.

(** The invariant of an aggregator that [addMarker] keeps: every marker is
    stored under its own identifier. *)
Definition keyed_by_identifier {T : Type} `{JPG_TableMarker T}
    (agg : Aggregator T) : Prop :=
  forall k m, markers agg !! k = Some m -> identifier m = k.

(** The counter is not below the number of occupied slots. *)
Definition slots_counted {T : Type} `{JPG_TableMarker T}
    (agg : Aggregator T) : Prop :=
  Z.of_nat (stdpp.base.size (markers agg)) <= size agg.

(** The segment [FF C4 00 08 | 00 AA | 01 BB | 00 CC]: three sub-tables
    of two bytes, for the slots 0, 1 and 0 again. *)
Definition three_tables_segment : list byte :=
  [xff; xc4; x00; x08; x00; xaa; x01; xbb; x00; xcc].

End Markers.

(* ===================================================================== *)
(** ** HuffmanNode and JPEGHuffmanTree *)
(* ===================================================================== *)

Module Huffman.

#[local] Set Warnings "-register-all".

(** [class HuffmanNode].  A child is owned by its parent alone, so the
    object graph is a tree and an update of a node below the root is the
    rebuilt path to it. *)
Inductive HuffmanNode : Set :=
| mkNode (left rigth : option HuffmanNode) (symbol : value).

Definition left (n : HuffmanNode) : option HuffmanNode :=
  match n with mkNode l _ _ => l end.
Definition rigth (n : HuffmanNode) : option HuffmanNode :=
  match n with mkNode _ r _ => r end.
Definition symbol (n : HuffmanNode) : value :=
  match n with mkNode _ _ s => s end.

(** [new HuffmanNode()] *)
Definition new_node : HuffmanNode := mkNode None None Null.

(** [!this.left], [!this.rigth]: the child is [null]. *)
Definition absent (child : option HuffmanNode) : bool :=
  match child with
  | None => true
  | Some _ => false
  end.

Definition validateInput (bit : Z) : result unit :=
  if (bit <? 0) || (bit >? 1) then Throw InvalidInput else Ok tt.

(** [setNextNode(bit)] *)
Definition setNextNode (n : HuffmanNode) (bit : Z) : result HuffmanNode :=
  do _ <- validateInput bit ;
  match n with
  | mkNode l r s =>
      if (bit =? 0) && absent l then Ok (mkNode (Some new_node) r s)
      else if (bit =? 1) && absent r then Ok (mkNode l (Some new_node) s)
      else Ok n
  end.

(** [getNextNode(bit)] *)
Definition getNextNode (n : HuffmanNode) (bit : Z) : result (option HuffmanNode) :=
  do _ <- validateInput bit ;
  if bit =? 0 then Ok (left n)
  else if bit =? 1 then Ok (rigth n)
  else Ok None.

(** [setSymbol(symbol)] *)
Definition setSymbol (n : HuffmanNode) (s : value) : result HuffmanNode :=
  if truthy (symbol n) then Throw AlreadyExists
  else Ok (mkNode (left n) (rigth n) s).

(** [getSymbol()] and [isLeaf()] *)
Definition getSymbol (n : HuffmanNode) : value := symbol n.
Definition isLeaf (n : HuffmanNode) : bool := not_nullish (symbol n).

(** The fields of [JPEGHuffmanTree]. *)
Record JPEGHuffmanTree : Set := mkTree {
  bits    : list Z;
  symbols : list Z;
  codes   : list Z;
  root    : HuffmanNode
}.

Definition new_tree : JPEGHuffmanTree := mkTree [] [] [] new_node.

(** The inner [for] of [generateCodes]: [iters] codes pushed. *)
Fixpoint push_codes (iters : nat) (codes : list Z) (curr_code : Z) : list Z * Z :=
  match iters with
  | O => (codes, curr_code)
  | S iters' => push_codes iters' (codes ++ [curr_code]) (curr_code + 1)
  end.

(** The outer [for] of [generateCodes], over what is left of [bits]. *)
Fixpoint generateCodes_loop (bits : list Z) (codes : list Z) (curr_code : Z) : list Z :=
  match bits with
  | [] => codes
  | bit_count :: bits' =>
      let '(codes, curr_code) :=
        if bit_count >? 0 then push_codes (Z.to_nat bit_count) codes curr_code
        else (codes ++ [-1], curr_code) in
      generateCodes_loop bits' codes (shl curr_code 1)
  end.

(** [generateCodes(bits)] *)
Definition generateCodes (t : JPEGHuffmanTree) (bits_arg : list Z) : JPEGHuffmanTree :=
  mkTree (bits t) (symbols t) (generateCodes_loop bits_arg (codes t) 0) (root t).

(** [(curr_code >> i) & 1]; an [undefined] code is 0 under [>>]. *)
Definition code_bit (curr_code : value) (i : Z) : Z :=
  band (sar (match curr_code with Num c => c | _ => 0 end) i) 1.

(** The bits the walk consumes: [i] from [bit_len - 1] down to 0. *)
Definition code_path (curr_code : value) (bit_len : nat) : list Z :=
  map (fun i => code_bit curr_code (Z.of_nat i)) (rev (seq 0 bit_len)).

(** The walk of [buildHuffmanTree] from [curr_node] along [path], creating
    the children on demand, and the [setSymbol] on the node it ends at. *)
Fixpoint insert_path (curr_node : HuffmanNode) (path : list Z) (curr_symbol : value)
    {struct path} : result HuffmanNode :=
  match path with
  | [] => setSymbol curr_node curr_symbol
  | bit :: path' =>
      do node <- setNextNode curr_node bit ;
      do next <- getNextNode node bit ;
      match next with
      | None => Throw TypeError
      | Some child =>
          do child' <- insert_path child path' curr_symbol ;
          Ok (if bit =? 0 then mkNode (Some child') (rigth node) (symbol node)
              else mkNode (left node) (Some child') (symbol node))
      end
  end.

(** The [for] over [counter]: the codes of one bit length. *)
Fixpoint insert_codes (t : JPEGHuffmanTree) (bit_len : nat) (codes_index : Z)
    (iters : nat) (counter : Z) (root : HuffmanNode) : result HuffmanNode :=
  match iters with
  | O => Ok root
  | S iters' =>
      let curr_code := index_value (codes t) (codes_index + counter) in
      let curr_symbol := index_value (symbols t) (codes_index + counter) in
      do root' <- insert_path root (code_path curr_code bit_len) curr_symbol ;
      insert_codes t bit_len codes_index iters' (counter + 1) root'
  end.

(** The [for] over [bits_idx], on what is left of [this.bits]. *)
Fixpoint buildHuffmanTree_loop (t : JPEGHuffmanTree) (bits_left : list Z)
    (bits_idx : nat) (symbols_index codes_index : Z) (root : HuffmanNode)
    : result HuffmanNode :=
  match bits_left with
  | [] => Ok root
  | count :: bits_left' =>
      let bit_len := (bits_idx + 1)%nat in
      if count =? 0 then
        buildHuffmanTree_loop t bits_left' (S bits_idx) symbols_index
                              (codes_index + 1) root
      else
        do root' <- insert_codes t bit_len codes_index (Z.to_nat count) 0 root ;
        buildHuffmanTree_loop t bits_left' (S bits_idx) (symbols_index + count)
                              (codes_index + count) root'
  end.

(** [buildHuffmanTree()] *)
Definition buildHuffmanTree (t : JPEGHuffmanTree) : result JPEGHuffmanTree :=
  do root' <- buildHuffmanTree_loop t (bits t) 0 0 0 (root t) ;
  Ok (mkTree (bits t) (symbols t) (codes t) root').

(** [buildTree(bits, symbols)] *)
Definition buildTree (t : JPEGHuffmanTree) (bits_arg symbols_arg : list Z)
    : result JPEGHuffmanTree :=
  let t := mkTree bits_arg symbols_arg (codes t) (root t) in
  buildHuffmanTree (generateCodes t bits_arg).

(** The loop of [decode] over the bits the generator yields. *)
Fixpoint decode_walk (curr_node : HuffmanNode) (bits_left : list Z) {struct bits_left}
    : result value :=
  match bits_left with
  | [] => if negb (isLeaf curr_node) then Ok Null else Ok (getSymbol curr_node)
  | bit :: bits_left' =>
      do next <- getNextNode curr_node bit ;
      match next with
      | None => Ok Null
      | Some node => decode_walk node bits_left'
      end
  end.

Section Decode.

(** [BitGenerator] of [utils/bitutil] is not among the sources; [decode]
    is taken over any generator, given by the bits it yields. *)
Variable BitGenerator : Z -> bool -> list Z.

(** [decode(code)] *)
Definition decode (t : JPEGHuffmanTree) (code : Z) : result value :=
  decode_walk (root t) (BitGenerator code true).

End Decode.

(** The entries [generateCodes] pushes for a list of counts: one per code,
    and one placeholder for a length without codes. *)
Definition code_slots (bits : list Z) : nat :=
  fold_right (fun count acc => ((if count >? 0 then Z.to_nat count else 1) + acc)%nat)
             0%nat bits.

(** What [decode] makes of the node a walk ends on. *)
Definition leaf_symbol (n : HuffmanNode) : value :=
  if isLeaf n then symbol n else Null.

(** The two values a bit may take. *)
Definition is_bit (bit : Z) : Prop := bit = 0 \/ bit = 1.

(** The node a path of bits leads to, when every child on it exists. *)
Fixpoint node_at (n : HuffmanNode) (path : list Z) {struct path}
    : option HuffmanNode :=
  match path with
  | [] => Some n
  | bit :: path' =>
      match (if bit =? 0 then left n else rigth n) with
      | Some child => node_at child path'
      | None => None
      end
  end.

(** Every symbol field in a tree. *)
Fixpoint symbols_in (n : HuffmanNode) : list value :=
  match n with
  | mkNode l r s =>
      s :: match l with Some c => symbols_in c | None => [] end
        ++ match r with Some c => symbols_in c | None => [] end
  end.

End Huffman.

(* ===================================================================== *)
(** * Properties *)
(* ===================================================================== *)

(** ** ToInt32 and the bitwise operators *)

Section HostFacts.

Lemma int32_range (z : Z) : - 2 ^ 31 <= int32 z < 2 ^ 31.
Proof.
  unfold int32.
  pose proof (Z.mod_pos_bound (z + 2 ^ 31) (2 ^ 32) ltac:(lia)).
  lia.
Qed.

Lemma lor_below_pow2 (x y k : Z) :
  0 <= k -> 0 <= x < 2 ^ k -> 0 <= y < 2 ^ k -> Z.lor x y < 2 ^ k.
Proof.
  intros Hk Hx Hy.
  assert (Hnn : 0 <= Z.lor x y) by (apply Z.lor_nonneg; lia).
  destruct (Z.eq_dec (Z.lor x y) 0) as [-> | Hne].
  - apply Z.pow_pos_nonneg; lia.
  - apply Z.log2_lt_pow2; [lia |].
    rewrite Z.log2_lor by lia.
    assert (Hlog : forall a, 0 <= a < 2 ^ k -> a <> 0 \/ 0 < k -> Z.log2 a < k).
    { intros a Ha Hak. destruct (Z.eq_dec a 0) as [-> | Han].
      - simpl. destruct Hak; lia.
      - apply Z.log2_lt_pow2; lia. }
    assert (0 < k).
    { destruct (Z.eq_dec k 0) as [-> | ]; [| lia].
      rewrite Z.pow_0_r in Hx, Hy.
      assert (x = 0) by lia. assert (y = 0) by lia.
      subst. exfalso. apply Hne. reflexivity. }
    apply Z.max_lub_lt; apply Hlog; auto.
Qed.

Lemma bor_lt (a b : Z) : bor a b < 2 ^ 31.
Proof.
  unfold bor.
  pose proof (int32_range a) as Ha. pose proof (int32_range b) as Hb.
  destruct (Z.neg_nonneg_cases (int32 a)) as [Hna | Hpa].
  - assert (Z.lor (int32 a) (int32 b) < 0) by (apply Z.lor_neg; auto). lia.
  - destruct (Z.neg_nonneg_cases (int32 b)) as [Hnb | Hpb].
    + assert (Z.lor (int32 a) (int32 b) < 0) by (apply Z.lor_neg; auto). lia.
    + apply lor_below_pow2; lia.
Qed.

Lemma bor_safe (a b : Z) : (bor a b >? MAX_SAFE_INTEGER) = false.
Proof.
  pose proof (bor_lt a b). unfold MAX_SAFE_INTEGER.
  rewrite Z.gtb_ltb. apply Z.ltb_ge. lia.
Qed.

End HostFacts.

(** ** BitStream: single-bit reads *)

Import Generic.

Section GetNextBit.

Lemma readBits_S (k : nat) (s : BitStream) :
  readBits (S k) s =
  (do (b, s1) <- getNextBit s ;
   do (bs, s2) <- readBits k s1 ;
   Ok (b :: bs, s2)).
Proof. reflexivity. Qed.

Lemma readBits_app (j k : nat) (s : BitStream) :
  readBits (j + k) s =
  (do (xs, s1) <- readBits j s ;
   do (ys, s2) <- readBits k s1 ;
   Ok (xs ++ ys, s2)).
Proof.
  revert s. induction j as [| j IH]; intros s.
  - simpl. destruct (readBits k s) as [[ys s2] | e]; reflexivity.
  - change (S j + k)%nat with (S (j + k)). rewrite !readBits_S.
    destruct (getNextBit s) as [[b s1] | e]; simpl; [| reflexivity].
    rewrite IH.
    destruct (readBits j s1) as [[xs s2] | e]; simpl; [| reflexivity].
    destruct (readBits k s2) as [[ys s3] | e]; reflexivity.
Qed.

(** Once a byte is loaded, eight reads shift it out from its top bit down and
    leave the counter at 0. *)
Lemma readBits_loaded (bs : list byte) (p : Z) (b : byte) :
  readBits 8 (mkBitStream bs p (byte_val b) 8) =
  Ok (byte_bits b, mkBitStream bs p 0 0).
Proof. destruct b; vm_compute; reflexivity. Qed.

(** With the counter at 0, a read first moves to the byte AFTER [position]. *)
Lemma getNextBit_load (s : BitStream) (b : byte) :
  byteCounter s = 0 ->
  position s + 1 < length_ s ->
  index (bytes s) (position s + 1) = Some b ->
  getNextBit s = getNextBit (mkBitStream (bytes s) (position s + 1) (byte_val b) 8).
Proof.
  intros Hc Hlt Hb. unfold getNextBit, super_readUInt8. simpl.
  rewrite Hc, Hb. simpl.
  destruct (position s + 1 >=? length_ s) eqn:Hge; [| reflexivity].
  rewrite Z.geb_leb in Hge. apply Z.leb_le in Hge. lia.
Qed.

Lemma readBits_byte (s : BitStream) (b : byte) :
  byteCounter s = 0 ->
  position s + 1 < length_ s ->
  index (bytes s) (position s + 1) = Some b ->
  readBits 8 s = Ok (byte_bits b, mkBitStream (bytes s) (position s + 1) 0 0).
Proof.
  intros Hc Hlt Hb.
  rewrite readBits_S, (getNextBit_load s b Hc Hlt Hb), <- readBits_S.
  apply readBits_loaded.
Qed.

Lemma index_app_middle (pre rest : list byte) (b : byte) :
  index (pre ++ b :: rest) (Z.of_nat (length pre) - 1 + 1) = Some b.
Proof.
  unfold index.
  replace (Z.of_nat (length pre) - 1 + 1) with (Z.of_nat (length pre)) by lia.
  destruct (Z.of_nat (length pre) <? 0) eqn:Hneg.
  - apply Z.ltb_lt in Hneg. lia.
  - rewrite Nat2Z.id, nth_error_app2 by lia.
    rewrite Nat.sub_diag. reflexivity.
Qed.

(** From a position on the last byte of [pre], the reads deliver the bytes
    of [rest], each most significant bit first. *)
Lemma readBits_rest (rest pre : list byte) :
  readBits (8 * length rest)
           (mkBitStream (pre ++ rest) (Z.of_nat (length pre) - 1) 0 0) =
  Ok (flat_map byte_bits rest,
      mkBitStream (pre ++ rest) (Z.of_nat (length (pre ++ rest)) - 1) 0 0).
Proof.
  revert pre. induction rest as [| b rest IH]; intros pre.
  - simpl. rewrite app_nil_r. reflexivity.
  - replace (8 * length (b :: rest))%nat with (8 + 8 * length rest)%nat
      by (simpl; lia).
    rewrite readBits_app.
    rewrite (readBits_byte _ b); simpl.
    + specialize (IH (pre ++ [b])).
      rewrite <- !app_assoc in IH. simpl in IH.
      rewrite length_app in IH. simpl in IH.
      replace (Z.of_nat (length pre) - 1 + 1)
        with (Z.of_nat (length pre + 1) - 1) by lia.
      rewrite IH. reflexivity.
    + reflexivity.
    + unfold length_. simpl. rewrite length_app. simpl. lia.
    + apply index_app_middle.
Qed.

(** What sequential single-bit reads deliver: the bits of every byte but
    the first, then [IndexOverflow]. *)
Lemma getNextBit_yields_tail_bits (b0 : byte) (rest : list byte) :
  exists s_end,
    readBits (8 * length rest) (initial (b0 :: rest)) =
      Ok (flat_map byte_bits rest, s_end) /\
    getNextBit s_end = Throw IndexOverflow.
Proof.
  eexists. split.
  - apply (readBits_rest rest [b0]).
  - unfold getNextBit, length_. simpl.
    destruct (_ >=? _) eqn:Hge; [reflexivity |].
    rewrite Z.geb_leb in Hge. apply Z.leb_gt in Hge. lia.
Qed.

Lemma getNextBit_empty : getNextBit (initial []) = Throw IndexOverflow.
Proof. reflexivity. Qed.

(** C1 (the code departs from it).  The claim gives 8n bits for n bytes.
    On the one-byte sequence [0x80] the very first [getNextBit] already
    throws [IndexOverflow]: no bit is delivered where the claim has eight,
    because the read moves past byte 0 before loading anything.  On
    [0x80, 0x01] the eight bits delivered are those of the second byte. *)
Theorem getNextBit_never_reads_first_byte :
  getNextBit (initial [x80]) = Throw IndexOverflow /\
  readBits 8 (initial [x80; x01]) =
    Ok ([0; 0; 0; 0; 0; 0; 0; 1], mkBitStream [x80; x01] 1 0 0) /\
  readBits 9 (initial [x80; x01]) = Throw IndexOverflow.
Proof. repeat split; vm_compute; reflexivity. Qed.

End GetNextBit.

(** ** BitStream: byte reads *)

Section ReadBytes.

Lemma readBytes_loop_error (s : BitStream) (cp wrap : Z) (le : bool)
    (iters : nat) (idx r : Z) (e : error) :
  readBytes_loop s cp wrap le iters idx r = Throw e -> e = RangeError.
Proof.
  revert idx r. induction iters as [| iters IH]; intros idx r; simpl.
  - discriminate.
  - unfold super_readUInt8.
    destruct (index (bytes s) _) as [b |]; simpl.
    + rewrite bor_safe. apply IH.
    + congruence.
Qed.

(** [BufferOverflow] is thrown exactly when the guard of [readBytes] holds:
    the end of the range is AT or past the length. *)
Lemma readBytes_BufferOverflow_iff (n : Z) (offset : option Z) (le : bool)
    (s : BitStream) :
  readBytes n offset le s = Throw BufferOverflow <->
  curr_position_of offset s + n >= length_ s.
Proof.
  unfold readBytes. cbv zeta.
  destruct (curr_position_of offset s + n >=? length_ s) eqn:Hge.
  - rewrite Z.geb_leb in Hge. apply Z.leb_le in Hge. split; [lia | reflexivity].
  - rewrite Z.geb_leb in Hge. apply Z.leb_gt in Hge. split; [| lia].
    destruct (readBytes_loop _ _ _ _ _ _ _) eqn:Hloop; simpl; [discriminate |].
    apply readBytes_loop_error in Hloop. congruence.
Qed.

Lemma readBytes_position (n : Z) (offset : option Z) (le : bool)
    (s s' : BitStream) (v : Z) :
  readBytes n offset le s = Ok (v, s') ->
  position s' = if offset_truthy offset then position s else position s + n.
Proof.
  unfold readBytes.
  destruct (_ >=? _); [discriminate |].
  destruct (readBytes_loop _ _ _ _ _ _ _); simpl; [| discriminate].
  intros Heq. injection Heq as _ <-. reflexivity.
Qed.

(** The cursor rule as the code has it. *)
Lemma readBytes_omitted_offset_advances (n : Z) (le : bool) (s s' : BitStream) (v : Z) :
  readBytes n None le s = Ok (v, s') -> position s' = position s + n.
Proof. intros Hr. apply readBytes_position in Hr. exact Hr. Qed.

Lemma readBytes_nonzero_offset_stays (n o : Z) (le : bool) (s s' : BitStream) (v : Z) :
  o <> 0 -> readBytes n (Some o) le s = Ok (v, s') -> position s' = position s.
Proof.
  intros Ho Hr. apply readBytes_position in Hr. rewrite Hr. simpl.
  destruct (Z.eqb_spec o 0); [contradiction | reflexivity].
Qed.

Lemma readBytes_zero_offset_advances (n : Z) (le : bool) (s s' : BitStream) (v : Z) :
  readBytes n (Some 0) le s = Ok (v, s') -> position s' = position s + n.
Proof. intros Hr. apply readBytes_position in Hr. exact Hr. Qed.

(** C5 (the code departs from it).  With the offset 0 supplied, each of
    [readBytes], [readUInt8] and [readUInt16BE] succeeds on [01 02 03] and
    leaves the cursor advanced by the number of bytes read, where the claim
    has it unchanged: the final assignment tests [offset] for truthiness,
    and 0 is falsy. *)
Theorem readBytes_offset_zero_moves_cursor :
  readBytes 1 (Some 0) false (initial [x01; x02; x03]) =
    Ok (1, mkBitStream [x01; x02; x03] 1 0 0) /\
  readUInt8 (Some 0) (initial [x01; x02; x03]) =
    Ok (1, mkBitStream [x01; x02; x03] 1 0 0) /\
  readUInt16BE (Some 0) (initial [x01; x02; x03]) =
    Ok (258, mkBitStream [x01; x02; x03] 2 0 0).
Proof. repeat split; vm_compute; reflexivity. Qed.

(** C6 (the code departs from it).  Reading the two bytes of [01 02] from
    the cursor 0 is a range that ends exactly at the last byte; the code
    throws [BufferOverflow], and so does the one-byte read of the last
    byte of [01 02 03] at offset 2. *)
Theorem readBytes_rejects_range_ending_at_last_byte :
  readBytes 2 None false (initial [x01; x02]) = Throw BufferOverflow /\
  readBytes 2 None true (initial [x01; x02]) = Throw BufferOverflow /\
  readBytes 1 (Some 2) false (initial [x01; x02; x03]) = Throw BufferOverflow.
Proof. repeat split; reflexivity. Qed.

End ReadBytes.

(** ** ToZigZag *)

Import ZigZag.

Section ToZigZagFacts.

(** The scan order modelled from the spec reads the documented matrix back
    as 1, 2, ..., 12. *)
Lemma zigzag_scan_documented_3x4 :
  zigzag_scan documented_3x4 3 4 = map Num [1; 2; 3; 4; 5; 6; 7; 8; 9; 10; 11; 12].
Proof. reflexivity. Qed.

(** The first diagonal of the 3x4 run: the cursor leaves (0, 0) for (1, 0)
    before anything is written, and [values[0]] is written there again. *)
Lemma ToZigZag_3x4_first_diagonal :
  let values := [1; 2; 3; 4; 5; 6; 7; 8; 9; 10; 11; 12] in
  let row := mkArray [Num 0; Num 0; Num 0; Num 0] [] in
  let row0 := mkArray [Num 1; Num 0; Num 0; Num 0] [] in
  diagonal_step values 2 0 (mkLocals [row0; row; row] (-1) 0 1 0 (0, 0) (0, 0)) =
  Ok (mkLocals [row0; row0; row] (-1) 1 1 0 (1, 0) (1, 0)).
Proof. vm_compute. reflexivity. Qed.

(** The second diagonal: (2, 0) is written, the cursor moves on to
    (3, -1), and row 3 does not exist. *)
Lemma ToZigZag_3x4_second_diagonal :
  let values := [1; 2; 3; 4; 5; 6; 7; 8; 9; 10; 11; 12] in
  let row := mkArray [Num 0; Num 0; Num 0; Num 0] [] in
  let row0 := mkArray [Num 1; Num 0; Num 0; Num 0] [] in
  diagonal_step values 2 1 (mkLocals [row0; row0; row] (-1) 1 1 0 (1, 0) (1, 0)) =
  Throw TypeError.
Proof. vm_compute. reflexivity. Qed.

(** C7 (the code departs from it).  On [1 .. 12] with 3 rows and 4 columns
    the code returns no matrix at all: the write of the second diagonal
    lands on row 3 and throws a [TypeError]; the matrix of the
    documentation's example is not produced. *)
Theorem ToZigZag_3x4_throws :
  ToZigZag [1; 2; 3; 4; 5; 6; 7; 8; 9; 10; 11; 12] 3 4 = Throw TypeError /\
  forall m, ToZigZag [1; 2; 3; 4; 5; 6; 7; 8; 9; 10; 11; 12] 3 4 = Ok m ->
            rows m <> documented_3x4.
Proof.
  assert (H : ToZigZag [1; 2; 3; 4; 5; 6; 7; 8; 9; 10; 11; 12] 3 4 = Throw TypeError)
    by (vm_compute; reflexivity).
  split; [exact H |]. intros m Hm. rewrite H in Hm. discriminate.
Qed.

(** Where the code does return, the result need not even have the shape
    asked for. *)
Lemma ToZigZag_2x1 :
  option_map rows (match ToZigZag [1; 2] 2 1 with Ok m => Some m | Throw _ => None end) =
  Some [[Num 1]; [Num 1; Num 2]].
Proof. vm_compute. reflexivity. Qed.

(** C8 (the code departs from it).  The matrix returned by [ToZigZag] is
    not always one that the zigzag scan reads back as the input: for the
    single value 7 and a 1x1 block no matrix is returned, the first write
    of the loop going to row 1. *)
Theorem ToZigZag_not_left_inverse_of_scan :
  ~ (forall (values : list Z) (nr nc : nat),
       length values = (nr * nc)%nat ->
       exists m, ToZigZag values (Z.of_nat nr) (Z.of_nat nc) = Ok m /\
                 zigzag_scan (rows m) nr nc = map Num values).
Proof.
  intros Hall.
  destruct (Hall [7] 1%nat 1%nat eq_refl) as [m [Hm _]].
  vm_compute in Hm. discriminate.
Qed.

End ToZigZagFacts.

(** ** Reads on a plain Buffer *)

Import NodeBuffer.

Section NodeBufferReads.

Lemma index_is_Some {A} (xs : list A) (i : Z) :
  is_Some (index xs i) <-> 0 <= i < Z.of_nat (length xs).
Proof.
  unfold index. destruct (i <? 0) eqn:Hneg.
  - apply Z.ltb_lt in Hneg. split; [intros [x Hx]; discriminate | lia].
  - apply Z.ltb_ge in Hneg. split.
    + intros [x Hx].
      assert (Hn : nth_error xs (Z.to_nat i) <> None) by congruence.
      apply nth_error_Some in Hn. lia.
    + intros Hi. destruct (nth_error xs (Z.to_nat i)) eqn:Hnth; [eauto |].
      apply nth_error_None in Hnth. lia.
Qed.

Lemma Buffer_readUInt8_inside (b : list byte) (o : Z) :
  0 <= o < Buffer_length b ->
  Buffer_readUInt8 b o = Ok (Buffer_at b o).
Proof.
  intros Ho. unfold Buffer_readUInt8, Buffer_at.
  destruct (proj2 (index_is_Some b o) Ho) as [x ->]. reflexivity.
Qed.

Lemma Buffer_readUInt8_outside (b : list byte) (o : Z) :
  Buffer_length b <= o ->
  Buffer_readUInt8 b o = Throw RangeError.
Proof.
  intros Ho. unfold Buffer_readUInt8.
  destruct (index b o) as [x |] eqn:Hx; [| reflexivity].
  pose proof (proj1 (index_is_Some b o) ltac:(eauto)). unfold Buffer_length in Ho. lia.
Qed.

Lemma Buffer_readUInt16BE_inside (b : list byte) (o : Z) :
  0 <= o -> o + 2 <= Buffer_length b ->
  Buffer_readUInt16BE b o = Ok (256 * Buffer_at b o + Buffer_at b (o + 1)).
Proof.
  intros Ho Hlen. unfold Buffer_readUInt16BE, Buffer_at, Buffer_length in *.
  destruct (proj2 (index_is_Some b o) ltac:(lia)) as [x ->].
  destruct (proj2 (index_is_Some b (o + 1)) ltac:(lia)) as [y ->].
  f_equal. lia.
Qed.

Lemma Buffer_readUInt16BE_outside (b : list byte) (o : Z) :
  Buffer_length b < o + 2 ->
  Buffer_readUInt16BE b o = Throw RangeError.
Proof.
  intros Ho. unfold Buffer_readUInt16BE.
  destruct (index b o) as [x |] eqn:Hx; [| reflexivity].
  destruct (index b (o + 1)) as [y |] eqn:Hy; [| reflexivity].
  pose proof (proj1 (index_is_Some b (o + 1)) ltac:(eauto)).
  unfold Buffer_length in Ho. lia.
Qed.

End NodeBufferReads.

(** ** Markers: SOI and EOI *)

Section CodeOnlyMarkers.

(** The base constructor never fails: the length field is read only when
    the buffer has its four bytes. *)
Lemma JPGMarker_new_total (nm : string) (c : Z) (buf : list byte) :
  Markers.JPGMarker_new nm c buf =
  Ok (Markers.mkJPGMarker nm c
        (if Buffer_length buf >=? 4 then Markers.declared_length buf + 2 else 2) buf).
Proof.
  unfold Markers.JPGMarker_new, Buffer_from. cbv zeta.
  destruct (Buffer_length buf >=? 4) eqn:Hge; [| reflexivity].
  rewrite Z.geb_leb in Hge. apply Z.leb_le in Hge.
  rewrite Buffer_readUInt16BE_inside by lia. reflexivity.
Qed.

(** C4.  For every input buffer, of any size and content, the SOI and the
    EOI constructor succeed and the marker they build reports the length
    2: the base constructor reads a length field only from a buffer of
    four bytes or more, where the read cannot fail, and [decodeSync] then
    sets the length to 2. *)
Theorem SOI_EOI_length_is_2 (buf : list byte) :
  (exists m, Markers.JPEG_SOIMarker buf = Ok m /\ Markers.markerLength m = 2) /\
  (exists m, Markers.JPEG_EOIMarker buf = Ok m /\ Markers.markerLength m = 2).
Proof.
  unfold Markers.JPEG_SOIMarker, Markers.JPEG_EOIMarker.
  rewrite !JPGMarker_new_total. simpl.
  split; eexists; split; reflexivity.
Qed.

End CodeOnlyMarkers.

(** ** Markers: the table aggregator *)

Section AggregatorFacts.

Import Markers.

Context {T : Type} `{JPG_TableMarker T}.
Variable markerConstructor : list byte -> result T.

(** One turn of the loop. *)
Lemma addMarker_loop_step (fuel : nat) (bbuffer : list byte) (agg : Aggregator T)
    (len current_pos : Z) (start_buffer : list byte) (marker : T) :
  len > 0 ->
  markerConstructor start_buffer = Ok marker ->
  addMarker_loop markerConstructor (S fuel) bbuffer agg len current_pos start_buffer =
  addMarker_loop markerConstructor fuel bbuffer
    (mkAggregator (<[identifier marker := marker]> (markers agg)) (size agg + 1))
    (len - (markerLength (to_marker marker) - 4))
    (current_pos + markerLength (to_marker marker) - 4)
    (Buffer_subarray bbuffer (current_pos + markerLength (to_marker marker) - 4)).
Proof.
  intros Hlen Hctor. simpl. rewrite Hctor.
  destruct (len >? 0) eqn:Hgt; [reflexivity |].
  rewrite Z.gtb_ltb in Hgt. apply Z.ltb_ge in Hgt. lia.
Qed.

(** Last write wins: after a turn the slot holds the marker just built. *)
Lemma slot_holds_latest_marker (agg : Aggregator T) (marker : T) :
  (<[identifier marker := marker]> (markers agg)) !! identifier marker = Some marker.
Proof. apply lookup_insert_eq. Qed.

(** A turn on an occupied slot leaves the set of slots as it was. *)
Lemma occupied_slot_keeps_dom (agg : Aggregator T) (marker old : T) :
  markers agg !! identifier marker = Some old ->
  dom (<[identifier marker := marker]> (markers agg)) = dom (markers agg).
Proof.
  intros Hold. rewrite dom_insert_L.
  apply subseteq_union_1_L, singleton_subseteq_l, elem_of_dom. eauto.
Qed.

(** With every sub-table reporting 5 or more, the remaining length bounds
    the number of turns. *)
Lemma addMarker_loop_terminates :
  (forall b m, markerConstructor b = Ok m -> markerLength (to_marker m) >= 5) ->
  forall fuel bbuffer agg len current_pos start_buffer,
    len <= Z.of_nat fuel ->
    addMarker_loop markerConstructor fuel bbuffer agg len current_pos start_buffer <> None.
Proof.
  intros H5. induction fuel as [| fuel IH]; intros bbuffer agg len pos sb Hlen; simpl.
  - destruct (len >? 0) eqn:Hgt; [| discriminate].
    rewrite Z.gtb_ltb in Hgt. apply Z.ltb_lt in Hgt. lia.
  - destruct (len >? 0) eqn:Hgt; [| discriminate].
    destruct (markerConstructor sb) as [m | e] eqn:Hctor; [| discriminate].
    apply IH. specialize (H5 _ _ Hctor). lia.
Qed.

(** With every sub-table reporting 4 or less, a positive remaining length
    stays positive. *)
Lemma addMarker_loop_diverges :
  (forall b, exists m, markerConstructor b = Ok m /\ markerLength (to_marker m) <= 4) ->
  forall fuel bbuffer agg len current_pos start_buffer,
    len > 0 ->
    addMarker_loop markerConstructor fuel bbuffer agg len current_pos start_buffer = None.
Proof.
  intros H4. induction fuel as [| fuel IH]; intros bbuffer agg len pos sb Hlen; simpl.
  - destruct (len >? 0) eqn:Hgt; [reflexivity |].
    rewrite Z.gtb_ltb in Hgt. apply Z.ltb_ge in Hgt. lia.
  - destruct (len >? 0) eqn:Hgt.
    + destruct (H4 sb) as [m [-> Hm]]. apply IH. lia.
    + rewrite Z.gtb_ltb in Hgt. apply Z.ltb_ge in Hgt. lia.
Qed.

(** A sub-table that reports exactly 4 leaves the remaining length, the
    position and the view as they were: the same turn repeats for ever. *)
Lemma addMarker_loop_stuck (m : T) (bbuffer : list byte) (current_pos : Z) :
  markerConstructor (Buffer_subarray bbuffer current_pos) = Ok m ->
  markerLength (to_marker m) = 4 ->
  forall fuel agg len,
    len > 0 ->
    addMarker_loop markerConstructor fuel bbuffer agg len current_pos
                   (Buffer_subarray bbuffer current_pos) = None.
Proof.
  intros Hctor H4. induction fuel as [| fuel IH]; intros agg len Hlen.
  - simpl. destruct (len >? 0) eqn:Hgt; [reflexivity |].
    rewrite Z.gtb_ltb in Hgt. apply Z.ltb_ge in Hgt. lia.
  - rewrite (addMarker_loop_step fuel bbuffer agg len current_pos _ m Hlen Hctor).
    rewrite H4.
    replace (current_pos + 4 - 4) with current_pos by lia.
    apply IH. lia.
Qed.

End AggregatorFacts.

Section AggregatorRuns.

Import Markers.

Lemma PairTable_reports_6 (b : list byte) (m : PairTable) :
  PairTable_new b = Ok m -> markerLength (to_marker m) >= 5.
Proof.
  unfold PairTable_new. destruct b as [| slot [| payload rest]]; try discriminate.
  intros Hm. injection Hm as <-. simpl. unfold markerLength. simpl. lia.
Qed.

Lemma EmptyTable_reports_4 (b : list byte) :
  exists m, EmptyTable_new b = Ok m /\ markerLength (to_marker m) <= 4.
Proof. eexists. split; [reflexivity |]. simpl. unfold markerLength. simpl. lia. Qed.

(** C2 (the code departs from it).  On a segment with sub-tables for the
    slots 0, 1 and 0 again, the third sub-table does replace the first in
    slot 0 (its payload CC is the one found there) and two slots are
    occupied, but [nofMarkers] is 3, the number of insertions, where the
    claim has 2: [size] is incremented on every turn of the loop. *)
Theorem nofMarkers_counts_insertions :
  exists agg,
    addMarker PairTable_new 3 empty_aggregator three_tables_segment = Some (agg, Ok 10) /\
    nofMarkers agg = 3 /\
    dom (markers agg) = {[0; 1]} /\
    pair_payload <$> markers agg !! 0 = Some 0xCC /\
    pair_payload <$> markers agg !! 1 = Some 0xBB.
Proof.
  eexists. split; [vm_compute; reflexivity |].
  repeat split; vm_compute; reflexivity.
Qed.

(** C10, the claim as stated, refuted.  A constructed sub-table that reports
    a length of 4 or less does not by itself keep the loop running: on
    [FF DB 00 06 03 07] the first sub-table reports 3, the loop steps back
    by one byte, the next two report 6 and 7, and [addMarker] returns 8. *)
Lemma addMarker_returns_after_short_table :
  ~ (forall (T : Type) (TM : JPG_TableMarker T)
            (markerConstructor : list byte -> result T)
            (agg : Aggregator T) (buffer : list byte) (v : Z) (m : T),
       Buffer_readUInt16BE (Buffer_from buffer) 2 = Ok v ->
       v - 2 > 0 ->
       markerConstructor (Buffer_subarray (Buffer_from buffer) 4) = Ok m ->
       markerLength (to_marker m) <= 4 ->
       forall fuel, addMarker markerConstructor fuel agg buffer = None).
Proof.
  intros Hclaim.
  pose (buffer := [xff; xdb; x00; x06; x03; x07]).
  pose (m := mkSelfSizedTable (mkJPGMarker "self-sized table" DQT_MARKER 3 [x03]) 3).
  assert (Hnone : addMarker SelfSizedTable_new 3 empty_aggregator buffer = None).
  { apply (Hclaim SelfSizedTable _ SelfSizedTable_new empty_aggregator buffer
                  6 m).
    - reflexivity.
    - lia.
    - reflexivity.
    - vm_compute. discriminate. }
  vm_compute in Hnone. discriminate.
Qed.

End AggregatorRuns.

Section AddMarkerTermination.

Import Markers.

Context {T : Type} `{JPG_TableMarker T}.

(** C10, as amended.  If every sub-table the constructor builds reports a
    length of 5 or more, a turn of the loop lowers the remaining length by
    [markerLength - 4 >= 1] and [addMarker] terminates, by returning or by
    an error that escapes.  A sub-table that reports exactly 4 makes the
    loop repeat the same turn for ever.  If the constructor always succeeds
    and every sub-table it builds reports 4 or less, a loop that is entered
    (the declared length is above 2) never terminates. *)
Theorem addMarker_termination (markerConstructor : list byte -> result T) :
  ((forall b m, markerConstructor b = Ok m -> markerLength (to_marker m) >= 5) ->
   (forall fuel bbuffer agg len current_pos start_buffer m,
      len > 0 ->
      markerConstructor start_buffer = Ok m ->
      len - (markerLength (to_marker m) - 4) < len /\
      addMarker_loop markerConstructor (S fuel) bbuffer agg len current_pos start_buffer =
      addMarker_loop markerConstructor fuel bbuffer
        (mkAggregator (<[identifier m := m]> (markers agg)) (size agg + 1))
        (len - (markerLength (to_marker m) - 4))
        (current_pos + markerLength (to_marker m) - 4)
        (Buffer_subarray bbuffer (current_pos + markerLength (to_marker m) - 4))) /\
   (forall agg buffer, exists fuel,
      addMarker markerConstructor fuel agg buffer <> None)) /\
  (forall bbuffer current_pos m,
     markerConstructor (Buffer_subarray bbuffer current_pos) = Ok m ->
     markerLength (to_marker m) = 4 ->
     forall fuel agg len,
       len > 0 ->
       addMarker_loop markerConstructor fuel bbuffer agg len current_pos
                      (Buffer_subarray bbuffer current_pos) = None) /\
  ((forall b, exists m, markerConstructor b = Ok m /\ markerLength (to_marker m) <= 4) ->
   forall agg buffer v,
     Buffer_readUInt16BE (Buffer_from buffer) 2 = Ok v ->
     v - 2 > 0 ->
     forall fuel, addMarker markerConstructor fuel agg buffer = None).
Proof.
  split; [| split].
  - intros H5. split.
    + intros fuel bbuffer agg len pos sb m Hlen Hctor. split.
      * specialize (H5 _ _ Hctor). lia.
      * apply addMarker_loop_step; assumption.
    + intros agg buffer. unfold addMarker.
      destruct (Buffer_readUInt16BE (Buffer_from buffer) 2) as [v | e].
      * exists (Z.to_nat (v - 2)). apply addMarker_loop_terminates; [assumption | lia].
      * exists 0%nat. discriminate.
  - intros bbuffer pos m Hctor H4. eapply addMarker_loop_stuck; eassumption.
  - intros H4 agg buffer v Hread Hv fuel. unfold addMarker. rewrite Hread.
    apply addMarker_loop_diverges; assumption.
Qed.

End AddMarkerTermination.

Section AddMarkerTerminationWitness.

Import Markers.

(** The theorem at work: the two-byte sub-tables of [PairTable] report 6 and
    [addMarker] terminates on the three-table segment; the sub-tables of
    [EmptyTable] report 4 and the same segment keeps the loop running. *)
Lemma addMarker_termination_witness :
  (exists fuel,
     addMarker PairTable_new fuel empty_aggregator three_tables_segment <> None) /\
  (forall fuel,
     addMarker_loop EmptyTable_new fuel three_tables_segment empty_aggregator
                    6 4 (Buffer_subarray three_tables_segment 4) = None) /\
  (forall fuel,
     addMarker EmptyTable_new fuel empty_aggregator three_tables_segment = None).
Proof.
  split; [| split].
  - destruct (addMarker_termination PairTable_new) as [Hterm _].
    destruct (Hterm PairTable_reports_6) as [_ Hex].
    apply Hex.
  - destruct (addMarker_termination EmptyTable_new) as [_ [Hstuck _]].
    intros fuel.
    apply (Hstuck three_tables_segment 4
                  (mkEmptyTable (mkJPGMarker "empty table" DQT_MARKER 4 []))).
    + reflexivity.
    + reflexivity.
    + lia.
  - destruct (addMarker_termination EmptyTable_new) as [_ [_ Hdiv]].
    apply (Hdiv EmptyTable_reports_4 empty_aggregator three_tables_segment
                8).
    + reflexivity.
    + lia.
Defined.

End AddMarkerTerminationWitness.

(** ** Huffman nodes and trees *)

Import Huffman.

Section HuffmanFacts.

Lemma getNextNode_bit (n : HuffmanNode) (bit : Z) :
  is_bit bit -> getNextNode n bit = Ok (if bit =? 0 then left n else rigth n).
Proof. intros [-> | ->]; reflexivity. Qed.

Lemma getNextNode_cases (n : HuffmanNode) (bit : Z) (next : option HuffmanNode) :
  getNextNode n bit = Ok next -> next = left n \/ next = rigth n \/ next = None.
Proof.
  unfold getNextNode, validateInput.
  destruct ((bit <? 0) || (bit >? 1)); simpl; [discriminate |].
  destruct (bit =? 0); [intros [= <-]; auto |].
  destruct (bit =? 1); intros [= <-]; auto.
Qed.

Lemma symbols_in_left (n c : HuffmanNode) (v : value) :
  left n = Some c -> In v (symbols_in c) -> In v (symbols_in n).
Proof.
  destruct n as [l r s]. simpl. intros -> Hin.
  right. apply in_or_app. left. exact Hin.
Qed.

Lemma symbols_in_rigth (n c : HuffmanNode) (v : value) :
  rigth n = Some c -> In v (symbols_in c) -> In v (symbols_in n).
Proof.
  destruct n as [l r s]. simpl. intros -> Hin.
  right. apply in_or_app. right. exact Hin.
Qed.

(** Whatever bits are walked, [decode] returns [null] or a symbol that is
    set in the tree. *)
Lemma decode_walk_result (path : list Z) (n : HuffmanNode) (v : value) :
  decode_walk n path = Ok v ->
  v = Null \/ (not_nullish v = true /\ In v (symbols_in n)).
Proof.
  revert n. induction path as [| bit path IH]; intros n; simpl.
  - unfold isLeaf, getSymbol. destruct n as [l r s]. simpl.
    destruct (not_nullish s) eqn:Hs; simpl; intros [= <-]; auto.
  - destruct (getNextNode n bit) as [next | e] eqn:Hnext; simpl; [| discriminate].
    destruct next as [c |]; [| intros [= <-]; auto].
    intros Hv. destruct (IH _ Hv) as [-> | [Hnn Hin]]; [auto |].
    right. split; [exact Hnn |].
    destruct (getNextNode_cases _ _ _ Hnext) as [Hl | [Hr | Hn]].
    + eapply symbols_in_left; eauto.
    + eapply symbols_in_rigth; eauto.
    + discriminate.
Qed.

(** "No match": a path that leaves the tree, or that ends on a node which
    is not a leaf, decodes to [null]. *)
Lemma decode_walk_no_match (path : list Z) (n : HuffmanNode) :
  Forall is_bit path ->
  match node_at n path with
  | None => True
  | Some final => isLeaf final = false
  end ->
  decode_walk n path = Ok Null.
Proof.
  revert n. induction path as [| bit path IH]; intros n Hbits; simpl.
  - intros ->. reflexivity.
  - inversion Hbits as [| ? ? Hbit Hrest]; subst.
    rewrite (getNextNode_bit n bit Hbit). simpl.
    destruct (if bit =? 0 then left n else rigth n) as [c |]; [| reflexivity].
    apply IH. exact Hrest.
Qed.

(** A leaf that is reached decodes to its symbol. *)
Lemma decode_walk_leaf (path : list Z) (n final : HuffmanNode) :
  Forall is_bit path ->
  node_at n path = Some final ->
  isLeaf final = true ->
  decode_walk n path = Ok (symbol final).
Proof.
  revert n. induction path as [| bit path IH]; intros n Hbits; simpl.
  - intros [= ->] ->. reflexivity.
  - inversion Hbits as [| ? ? Hbit Hrest]; subst.
    rewrite (getNextNode_bit n bit Hbit). simpl.
    destruct (if bit =? 0 then left n else rigth n) as [c |]; [| discriminate].
    apply IH. exact Hrest.
Qed.

(** C3 (the code departs from it).  From bits = [0, 1] and symbols = [5]
    the code 00 is generated next to the placeholder -1, and the symbol
    for it is read at [symbols[1]], past the list, because the symbols are
    indexed by the index into [codes]: the node at 00 receives [undefined]
    and is no leaf.  No node of the tree carries 5, so whatever bits the
    generator yields for a code, [decode] returns [null] when it returns,
    never 5, the 2-bit code 00 included. *)
Theorem decode_single_code_never_returns_symbol (BitGenerator : Z -> bool -> list Z) :
  exists t,
    buildTree new_tree [0; 1] [5] = Ok t /\
    codes t = [-1; 0] /\
    node_at (root t) [0; 0] = Some (mkNode None None Undefined) /\
    decode_walk (root t) [0; 0] = Ok Null /\
    forall code v, decode BitGenerator t code = Ok v -> v = Null.
Proof.
  eexists. split; [vm_compute; reflexivity |].
  repeat split.
  intros code v Hv. unfold decode in Hv.
  apply decode_walk_result in Hv. destruct Hv as [-> | [Hnn Hin]]; [reflexivity |].
  simpl in Hin. destruct Hin as [<- | [<- | [<- | []]]]; discriminate.
Qed.

(** [setSymbol] on a node that holds a number other than 0 throws. *)
Lemma setSymbol_twice_nonzero (n n1 : HuffmanNode) (first : Z) (second : value) :
  first <> 0 ->
  setSymbol n (Num first) = Ok n1 ->
  setSymbol n1 second = Throw AlreadyExists.
Proof.
  intros Hne. unfold setSymbol.
  destruct (truthy (symbol n)); [discriminate |].
  intros [= <-]. simpl.
  destruct (Z.eqb_spec first 0); [contradiction | reflexivity].
Qed.

(** C9 (the code departs from it).  On a fresh node, [setSymbol(0)]
    followed by [setSymbol(7)] raises nothing and leaves the symbol 7: the
    guard tests the stored symbol for truthiness, and the symbol 0 is
    falsy, although [isLeaf] counts the node as carrying a symbol. *)
Theorem setSymbol_twice_after_zero_succeeds :
  setSymbol new_node (Num 0) = Ok (mkNode None None (Num 0)) /\
  isLeaf (mkNode None None (Num 0)) = true /\
  setSymbol (mkNode None None (Num 0)) (Num 7) = Ok (mkNode None None (Num 7)).
Proof. repeat split. Qed.

End HuffmanFacts.

(* ===================================================================== *)
(** * Further properties of the code *)
(* ===================================================================== *)

(** ** Bytes under the bitwise operators *)

Section ByteArithmetic.

Lemma int32_small (z : Z) : - 2 ^ 31 <= z < 2 ^ 31 -> int32 z = z.
Proof. intros Hz. unfold int32. rewrite Z.mod_small by lia. lia. Qed.

Lemma byte_val_range (b : byte) : 0 <= byte_val b < 256.
Proof. unfold byte_val. pose proof (Byte.to_N_bounded b). lia. Qed.

Lemma testbit_small (b k i : Z) : 0 <= b < 2 ^ k -> k <= i -> Z.testbit b i = false.
Proof.
  intros Hb Hi.
  destruct (Z.eq_dec b 0) as [-> | Hne]; [apply Z.bits_0 |].
  assert (0 <= k).
  { destruct (Z.neg_nonneg_cases k) as [Hneg | Hk]; [| exact Hk].
    rewrite Z.pow_neg_r in Hb by exact Hneg. lia. }
  apply Z.bits_above_log2; [lia |].
  assert (Z.log2 b < k) by (apply Z.log2_lt_pow2; lia). lia.
Qed.

Lemma land_shiftl_small (r b k : Z) :
  0 <= k -> 0 <= b < 2 ^ k -> Z.land (Z.shiftl r k) b = 0.
Proof.
  intros Hk Hb. apply Z.bits_inj'. intros i Hi.
  rewrite Z.land_spec, Z.bits_0.
  destruct (Z.lt_ge_cases i k) as [Hlt | Hge].
  - rewrite Z.shiftl_spec_low by lia. reflexivity.
  - rewrite (testbit_small b k i) by lia. apply andb_false_r.
Qed.

Lemma lor_shiftl_add (r b k : Z) :
  0 <= k -> 0 <= b < 2 ^ k -> Z.lor (Z.shiftl r k) b = r * 2 ^ k + b.
Proof.
  intros Hk Hb.
  pose proof (land_shiftl_small r b k Hk Hb) as Hland.
  rewrite <- Z.lxor_lor by exact Hland.
  rewrite <- Z.add_nocarry_lxor by exact Hland.
  rewrite Z.shiftl_mul_pow2 by lia. reflexivity.
Qed.

(** One turn of the accumulation in [readBytes], while the accumulator has
    room for eight more bits. *)
Lemma be_step (r b : Z) :
  0 <= r < 2 ^ 23 -> 0 <= b < 256 -> bor (shl r 8) b = r * 256 + b.
Proof.
  intros Hr Hb. unfold bor, shl. change (8 mod 32) with 8.
  rewrite (int32_small r) by lia.
  rewrite Z.shiftl_mul_pow2 by lia.
  rewrite (int32_small (r * 2 ^ 8)) by lia.
  rewrite (int32_small (r * 2 ^ 8)) by lia.
  rewrite (int32_small b) by lia.
  rewrite <- Z.shiftl_mul_pow2 by lia.
  rewrite lor_shiftl_add by lia. lia.
Qed.

(** [SplitByte] cuts a non-negative 31-bit value at bit [size]: the
    first component is the quotient by [2^size], the second the remainder. *)
Theorem SplitByte_div_mod (value size : Z) :
  0 <= value < 2 ^ 31 ->
  0 <= size < 32 ->
  SplitByte value size = (value / 2 ^ size, value mod 2 ^ size).
Proof.
  intros Hv Hs. unfold SplitByte, sar, shl, band, bnot.
  rewrite (Z.mod_small size 32) by lia.
  rewrite (int32_small value) by lia.
  rewrite Z.shiftr_div_pow2 by lia.
  assert (Hpow : 0 < 2 ^ size) by (apply Z.pow_pos_nonneg; lia).
  set (q := value / 2 ^ size).
  assert (Hq : 0 <= q * 2 ^ size <= value).
  { pose proof (Z.mul_div_le value (2 ^ size) Hpow) as Hle.
    assert (0 <= q) by (apply Z.div_pos; lia). split; [nia | lia]. }
  assert (Hq0 : 0 <= q <= value).
  { assert (0 <= q) by (apply Z.div_pos; lia). nia. }
  rewrite (int32_small q) by lia.
  rewrite Z.shiftl_mul_pow2 by lia.
  rewrite !(int32_small (q * 2 ^ size)) by lia.
  rewrite (int32_small (Z.lnot (q * 2 ^ size))) by (unfold Z.lnot; lia).
  f_equal.
  apply Z.bits_inj'. intros i Hi.
  rewrite Z.land_spec, Z.lnot_spec by lia.
  rewrite <- Z.shiftl_mul_pow2 by lia.
  destruct (Z.lt_ge_cases i size) as [Hlt | Hge].
  - rewrite Z.shiftl_spec_low by lia.
    rewrite Z.mod_pow2_bits_low by lia. simpl. apply andb_true_r.
  - rewrite Z.shiftl_spec by lia.
    rewrite Z.mod_pow2_bits_high by lia.
    unfold q. rewrite <- Z.shiftr_div_pow2 by lia.
    rewrite Z.shiftr_spec by lia.
    replace (i - size + size) with i by lia.
    apply andb_negb_r.
Qed.

Lemma SplitByte_div_mod_witness : SplitByte 0x0102 8 = (1, 2).
Proof. apply (SplitByte_div_mod 0x0102 8); lia. Defined.

End ByteArithmetic.

(** ** BitStream: what the reads keep and return *)

Section BitStreamReads.

Lemma sar_7_byte (c : Z) : 0 <= c < 256 -> sar c 7 = c / 128 /\ (sar c 7 = 0 \/ sar c 7 = 1).
Proof.
  intros Hc. unfold sar. change (7 mod 32) with 7.
  rewrite (int32_small c) by lia. rewrite Z.shiftr_div_pow2 by lia.
  change (2 ^ 7) with 128. split; [reflexivity |].
  assert (0 <= c / 128 < 2) by (split; [apply Z.div_pos; lia | apply Z.div_lt_upper_bound; lia]).
  lia.
Qed.

Lemma shift_out_byte (c : Z) : 0 <= c < 256 -> band (shl c 1) 255 = (2 * c) mod 256.
Proof.
  intros Hc. unfold band, shl. change (1 mod 32) with 1.
  rewrite (int32_small c) by lia. rewrite Z.shiftl_mul_pow2 by lia.
  rewrite !(int32_small (c * 2 ^ 1)) by lia.
  change (int32 255) with (Z.ones 8). rewrite Z.land_ones by lia.
  f_equal. lia.
Qed.

(** a bit read keeps the counter within a byte and the current byte
    within eight bits, returns 0 or 1, never changes the bytes, and moves
    the position by one exactly when it had to load a byte. *)
Theorem getNextBit_keeps_bit_state (s s' : BitStream) (bit : Z) :
  bit_state_ok s ->
  getNextBit s = Ok (bit, s') ->
  bit_state_ok s' /\
  byteCounter s' <= 7 /\
  (bit = 0 \/ bit = 1) /\
  bytes s' = bytes s /\
  position s' = (if byteCounter s =? 0 then position s + 1 else position s).
Proof.
  intros [Hcnt Hcur]. unfold getNextBit, bit_state_ok.
  destruct (byteCounter s =? 0) eqn:Hzero.
  - destruct (position s + 1 >=? length_ s); simpl; [discriminate |].
    unfold super_readUInt8. destruct (index (bytes s) (position s + 1)) as [b |];
      simpl; [| discriminate].
    pose proof (byte_val_range b) as Hb.
    intros [= <- <-]. simpl.
    destruct (sar_7_byte (byte_val b) Hb) as [_ Hbit].
    rewrite (shift_out_byte (byte_val b) Hb).
    pose proof (Z.mod_pos_bound (2 * byte_val b) 256 ltac:(lia)).
    repeat split; try lia; exact Hbit.
  - simpl. apply Z.eqb_neq in Hzero.
    intros [= <- <-]. simpl.
    destruct (sar_7_byte (currByte s) Hcur) as [_ Hbit].
    rewrite (shift_out_byte (currByte s) Hcur).
    pose proof (Z.mod_pos_bound (2 * currByte s) 256 ltac:(lia)).
    repeat split; try lia; exact Hbit.
Qed.

Lemma getNextBit_keeps_bit_state_witness :
  exists bit s',
    getNextBit (initial [x00; xa5]) = Ok (bit, s') /\
    bit_state_ok s' /\ byteCounter s' <= 7 /\ (bit = 0 \/ bit = 1).
Proof.
  eexists. eexists. split; [reflexivity |].
  destruct (getNextBit_keeps_bit_state (initial [x00; xa5]) _ _
              ltac:(unfold bit_state_ok; simpl; lia) eq_refl)
    as [Hok [Hle [Hbit _]]].
  repeat split; solve [apply Hok | exact Hle | exact Hbit].
Defined.

(** One turn of the loop of [readBytes]: the size test never fires. *)
Lemma readBytes_loop_step (s : BitStream) (cp wrap : Z) (le : bool) (iters : nat)
    (idx r : Z) :
  readBytes_loop s cp wrap le (S iters) idx r =
  match index (bytes s) (cp + (if le then 1 else -1) * (wrap - idx)) with
  | Some b => readBytes_loop s cp wrap le iters (idx + 1) (bor (shl r 8) (byte_val b))
  | None => Throw RangeError
  end.
Proof.
  simpl. unfold super_readUInt8.
  destruct (index (bytes s) _); simpl; [rewrite bor_safe |]; reflexivity.
Qed.

Lemma readBytes_loop_below_2_31 (s : BitStream) (cp wrap : Z) (le : bool)
    (iters : nat) (idx r v : Z) :
  r < 2 ^ 31 ->
  readBytes_loop s cp wrap le iters idx r = Ok v -> v < 2 ^ 31.
Proof.
  revert idx r. induction iters as [| iters IH]; intros idx r Hr.
  - simpl. intros [= <-]. exact Hr.
  - rewrite readBytes_loop_step. destruct (index (bytes s) _); [| discriminate].
    apply IH. apply bor_lt.
Qed.

(** [readBytes] never reports [MaxIntegerReached]: the accumulator is
    kept by 32-bit operators, so a read fails only with [BufferOverflow] or
    with Buffer's [RangeError], and a value it returns is below 2^31
    whatever the number of bytes asked for. *)
Theorem readBytes_never_MaxIntegerReached (n : Z) (offset : option Z) (le : bool)
    (s : BitStream) :
  match readBytes n offset le s with
  | Ok (v, _) => v < 2 ^ 31
  | Throw e => e = BufferOverflow \/ e = RangeError
  end.
Proof.
  unfold readBytes. cbv zeta.
  destruct (_ >=? _); [left; reflexivity |].
  destruct (readBytes_loop _ _ _ _ _ _ _) as [v | e] eqn:Hloop; simpl.
  - eapply readBytes_loop_below_2_31; [| exact Hloop]. lia.
  - right. eapply readBytes_loop_error. exact Hloop.
Qed.

Lemma readBytes_frame (n : Z) (offset : option Z) (le : bool)
    (s s' : BitStream) (v : Z) :
  readBytes n offset le s = Ok (v, s') ->
  bytes s' = bytes s /\ currByte s' = currByte s /\ byteCounter s' = byteCounter s /\
  position s' =
    match offset with
    | Some o => if o =? 0 then position s + n else position s
    | None => position s + n
    end.
Proof.
  unfold readBytes. cbv zeta.
  destruct (_ >=? _); [discriminate |].
  destruct (readBytes_loop _ _ _ _ _ _ _); simpl; [| discriminate].
  intros [= _ <-]. simpl. repeat split.
  destruct offset as [o |]; simpl; [destruct (o =? 0) |]; reflexivity.
Qed.

(** a successful [readBytes] changes nothing but the position, which
    stays when a non-zero offset was given and advances by [n] otherwise. *)
Theorem readBytes_only_moves_cursor (n : Z) (offset : option Z) (le : bool)
    (s s' : BitStream) (v : Z) :
  readBytes n offset le s = Ok (v, s') ->
  bytes s' = bytes s /\ currByte s' = currByte s /\ byteCounter s' = byteCounter s /\
  position s' =
    match offset with
    | Some o => if o =? 0 then position s + n else position s
    | None => position s + n
    end.
Proof. apply readBytes_frame. Qed.

Lemma readBytes_only_moves_cursor_witness :
  bytes (mkBitStream [x01; x02; x03] 0 0 0) = bytes (initial [x01; x02; x03]) /\
  currByte (mkBitStream [x01; x02; x03] 0 0 0) = currByte (initial [x01; x02; x03]) /\
  byteCounter (mkBitStream [x01; x02; x03] 0 0 0) = byteCounter (initial [x01; x02; x03]) /\
  position (mkBitStream [x01; x02; x03] 0 0 0) = position (initial [x01; x02; x03]).
Proof.
  exact (readBytes_only_moves_cursor 1 (Some 1) false (initial [x01; x02; x03])
           (mkBitStream [x01; x02; x03] 0 0 0) 2 eq_refl).
Defined.

Lemma readBytes_loop_ok (s : BitStream) (cp wrap : Z) (le : bool) (iters : nat)
    (idx r : Z) :
  (forall j, idx <= j < idx + Z.of_nat iters ->
             0 <= cp + (if le then 1 else -1) * (wrap - j) < length_ s) ->
  exists v, readBytes_loop s cp wrap le iters idx r = Ok v.
Proof.
  revert idx r. induction iters as [| iters IH]; intros idx r Hin.
  - eexists. reflexivity.
  - rewrite readBytes_loop_step.
    destruct (proj2 (index_is_Some (bytes s) _) (Hin idx ltac:(lia))) as [b ->].
    apply IH. intros j Hj. apply Hin. lia.
Qed.

Lemma readBytes_succeeds_iff (n : Z) (offset : option Z) (le : bool) (s : BitStream) :
  0 <= curr_position_of offset s ->
  0 <= n ->
  (is_ok (readBytes n offset le s) = true <->
   curr_position_of offset s + n < length_ s) /\
  (is_ok (readBytes n offset le s) = false ->
   readBytes n offset le s = Throw BufferOverflow).
Proof.
  intros Hcp Hn. unfold readBytes. cbv zeta.
  destruct (curr_position_of offset s + n >=? length_ s) eqn:Hge.
  - rewrite Z.geb_leb in Hge. apply Z.leb_le in Hge. simpl.
    split; [split; [discriminate | lia] | reflexivity].
  - rewrite Z.geb_leb in Hge. apply Z.leb_gt in Hge.
    destruct (readBytes_loop_ok s (curr_position_of offset s)
                (if le then n - 1 else 0) le (Z.to_nat n) 0 0) as [v ->].
    { intros j Hj. destruct le; lia. }
    simpl. split; [split; [lia | reflexivity] | discriminate].
Qed.

(** for a start that is not negative and a count that is not negative,
    [readBytes] succeeds exactly when the byte after the range is still in
    the buffer, and throws [BufferOverflow] otherwise. *)
Theorem readBytes_success_criterion (n : Z) (offset : option Z) (le : bool)
    (s : BitStream) :
  0 <= curr_position_of offset s ->
  0 <= n ->
  (is_ok (readBytes n offset le s) = true <->
   curr_position_of offset s + n < length_ s) /\
  (is_ok (readBytes n offset le s) = false ->
   readBytes n offset le s = Throw BufferOverflow).
Proof. apply readBytes_succeeds_iff. Qed.

Lemma readBytes_success_criterion_witness :
  is_ok (readBytes 2 None false (initial [x01; x02; x03])) = true /\
  readBytes 3 None false (initial [x01; x02; x03]) = Throw BufferOverflow.
Proof.
  destruct (readBytes_success_criterion 2 None false (initial [x01; x02; x03])
              ltac:(simpl; lia) ltac:(lia)) as [[_ Hok] _].
  destruct (readBytes_success_criterion 3 None false (initial [x01; x02; x03])
              ltac:(simpl; lia) ltac:(lia)) as [_ Hthrow].
  split; [apply Hok; unfold length_; simpl; lia | apply Hthrow; reflexivity].
Defined.

End BitStreamReads.

Section BitStreamValues.

Lemma byte_at_range (s : BitStream) (i : Z) : 0 <= byte_at s i < 256.
Proof.
  unfold byte_at. destruct (index (bytes s) i) as [b |]; [apply byte_val_range | lia].
Qed.

Lemma byte_at_index (s : BitStream) (i : Z) (b : byte) :
  index (bytes s) i = Some b -> byte_at s i = byte_val b.
Proof. unfold byte_at. intros ->. reflexivity. Qed.

(** The loop of [readBytes] unrolled for one, two and three bytes, in
    terms of the bytes it meets. *)
Ltac read_one H b Hb :=
  rewrite readBytes_loop_step in H;
  match type of H with
  | context [index ?l ?i] =>
      destruct (index l i) as [b |] eqn:Hb; [| discriminate H]
  end.

Lemma readBytes_value (n : Z) (offset : option Z) (le : bool)
    (s s' : BitStream) (v : Z) :
  0 <= n <= 3 ->
  readBytes n offset le s = Ok (v, s') ->
  v = (if le then le_value else be_value)
        (bytes_from s (curr_position_of offset s) (Z.to_nat n)).
Proof.
  intros Hn. unfold readBytes. cbv zeta.
  destruct (_ >=? _); [discriminate |].
  set (cp := curr_position_of offset s).
  destruct (readBytes_loop _ _ _ _ _ _ _) as [r |] eqn:Hloop; simpl; [| discriminate].
  intros [= <- _].
  assert (Hcases : n = 0 \/ n = 1 \/ n = 2 \/ n = 3) by lia.
  unfold bytes_from, be_value, le_value.
  destruct Hcases as [-> | [-> | [-> | ->]]].
  - simpl in Hloop. injection Hloop as <-. destruct le; reflexivity.
  - change (Z.to_nat 1) with 1%nat in *.
    read_one Hloop x0 Hx0. simpl in Hloop. injection Hloop as <-.
    pose proof (byte_val_range x0) as Hr0.
    rewrite be_step by lia.
    assert (H0 : index (bytes s) (cp + 0) = Some x0)
      by (rewrite <- Hx0; f_equal; destruct le; lia).
    destruct le; cbn [map seq fold_left fold_right]; change (Z.of_nat 0) with 0;
      rewrite (byte_at_index _ _ _ H0); lia.
  - change (Z.to_nat 2) with 2%nat in *.
    read_one Hloop x0 Hx0. read_one Hloop x1 Hx1.
    simpl in Hloop. injection Hloop as <-.
    pose proof (byte_val_range x0) as Hr0. pose proof (byte_val_range x1) as Hr1.
    rewrite (be_step 0) by lia. rewrite be_step by lia.
    destruct le; cbn [map seq fold_left fold_right];
      change (Z.of_nat 0) with 0; change (Z.of_nat 1) with 1.
    + assert (H0 : index (bytes s) (cp + 0) = Some x1) by (rewrite <- Hx1; f_equal; lia).
      assert (H1 : index (bytes s) (cp + 1) = Some x0) by (rewrite <- Hx0; f_equal; lia).
      rewrite (byte_at_index _ _ _ H0), (byte_at_index _ _ _ H1). lia.
    + assert (H0 : index (bytes s) (cp + 0) = Some x0) by (rewrite <- Hx0; f_equal; lia).
      assert (H1 : index (bytes s) (cp + 1) = Some x1) by (rewrite <- Hx1; f_equal; lia).
      rewrite (byte_at_index _ _ _ H0), (byte_at_index _ _ _ H1). lia.
  - change (Z.to_nat 3) with 3%nat in *.
    read_one Hloop x0 Hx0. read_one Hloop x1 Hx1. read_one Hloop x2 Hx2.
    simpl in Hloop. injection Hloop as <-.
    pose proof (byte_val_range x0) as Hr0. pose proof (byte_val_range x1) as Hr1.
    pose proof (byte_val_range x2) as Hr2.
    rewrite (be_step 0) by lia. rewrite (be_step (0 * 256 + _)) by lia.
    rewrite be_step by lia.
    destruct le; cbn [map seq fold_left fold_right];
      change (Z.of_nat 0) with 0; change (Z.of_nat 1) with 1; change (Z.of_nat 2) with 2.
    + assert (H0 : index (bytes s) (cp + 0) = Some x2) by (rewrite <- Hx2; f_equal; lia).
      assert (H1 : index (bytes s) (cp + 1) = Some x1) by (rewrite <- Hx1; f_equal; lia).
      assert (H2 : index (bytes s) (cp + 2) = Some x0) by (rewrite <- Hx0; f_equal; lia).
      rewrite (byte_at_index _ _ _ H0), (byte_at_index _ _ _ H1),
        (byte_at_index _ _ _ H2). lia.
    + assert (H0 : index (bytes s) (cp + 0) = Some x0) by (rewrite <- Hx0; f_equal; lia).
      assert (H1 : index (bytes s) (cp + 1) = Some x1) by (rewrite <- Hx1; f_equal; lia).
      assert (H2 : index (bytes s) (cp + 2) = Some x2) by (rewrite <- Hx2; f_equal; lia).
      rewrite (byte_at_index _ _ _ H0), (byte_at_index _ _ _ H1),
        (byte_at_index _ _ _ H2). lia.
Qed.

(** up to three bytes, a read returns the number the bytes of its range
    spell: most significant byte first by default, least significant byte
    first when [le] is set. *)
Theorem readBytes_spells_bytes (n : Z) (offset : option Z) (le : bool)
    (s s' : BitStream) (v : Z) :
  0 <= n <= 3 ->
  readBytes n offset le s = Ok (v, s') ->
  v = (if le then le_value else be_value)
        (bytes_from s (curr_position_of offset s) (Z.to_nat n)).
Proof. apply readBytes_value. Qed.

Lemma readBytes_spells_bytes_witness :
  readBytes 2 None false (initial [x01; x02; x00]) =
    Ok (258, mkBitStream [x01; x02; x00] 2 0 0) /\
  258 = be_value [1; 2] /\
  readBytes 2 (Some 0) true (initial [x01; x02; x00]) =
    Ok (513, mkBitStream [x01; x02; x00] 2 0 0) /\
  513 = le_value [1; 2].
Proof.
  split; [reflexivity |]. split.
  - exact (readBytes_spells_bytes 2 None false (initial [x01; x02; x00])
             (mkBitStream [x01; x02; x00] 2 0 0) 258 ltac:(lia) eq_refl).
  - split; [reflexivity |].
    exact (readBytes_spells_bytes 2 (Some 0) true (initial [x01; x02; x00])
             (mkBitStream [x01; x02; x00] 2 0 0) 513 ltac:(lia) eq_refl).
Defined.

(** [readUInt8] and [readUInt16BE] in those terms. *)
Lemma readUInt8_value (offset : option Z) (s s' : BitStream) (v : Z) :
  readUInt8 offset s = Ok (v, s') -> v = byte_at s (curr_position_of offset s).
Proof.
  intros Hr. apply (readBytes_value 1) in Hr; [| lia].
  rewrite Hr. unfold bytes_from, be_value. simpl.
  change (Z.of_nat 0) with 0.
  replace (curr_position_of offset s + 0) with (curr_position_of offset s) by lia.
  lia.
Qed.

Lemma readUInt16BE_value (offset : option Z) (s s' : BitStream) (v : Z) :
  readUInt16BE offset s = Ok (v, s') ->
  v = 256 * byte_at s (curr_position_of offset s)
      + byte_at s (curr_position_of offset s + 1).
Proof.
  intros Hr. apply (readBytes_value 2) in Hr; [| lia].
  rewrite Hr. unfold bytes_from, be_value. simpl.
  change (Z.of_nat 0) with 0. change (Z.of_nat 1) with 1.
  replace (curr_position_of offset s + 0) with (curr_position_of offset s) by lia.
  lia.
Qed.

(** [getNextUInt8] returns the byte at the cursor and leaves the stream
    as it was, except at the cursor 0, where it moves the cursor to 1. *)
Theorem getNextUInt8_peek (s s' : BitStream) (v : Z) :
  getNextUInt8 s = Ok (v, s') ->
  v = byte_at s (position s) /\
  s' = mkBitStream (bytes s) (if position s =? 0 then 1 else position s)
                   (currByte s) (byteCounter s).
Proof.
  unfold getNextUInt8. intros Hr. split.
  - apply (readUInt8_value (Some (position s))) in Hr. exact Hr.
  - pose proof (readBytes_frame _ _ _ _ _ _ Hr) as [Hb [Hc [Hn Hp]]].
    destruct s' as [b' p' c' k']. simpl in *. subst.
    f_equal. destruct (position s =? 0) eqn:Hz; [| reflexivity].
    apply Z.eqb_eq in Hz. lia.
Qed.

Lemma getNextUInt8_peek_witness :
  getNextUInt8 (initial [x07; x08]) = Ok (7, mkBitStream [x07; x08] 1 0 0) /\
  7 = byte_at (initial [x07; x08]) 0 /\
  getNextUInt8 (mkBitStream [x07; x08; x09] 1 0 0) =
    Ok (8, mkBitStream [x07; x08; x09] 1 0 0) /\
  8 = byte_at (mkBitStream [x07; x08; x09] 1 0 0) 1.
Proof.
  split; [reflexivity |]. split.
  - exact (proj1 (getNextUInt8_peek (initial [x07; x08])
                    (mkBitStream [x07; x08] 1 0 0) 7 eq_refl)).
  - split; [reflexivity |].
    exact (proj1 (getNextUInt8_peek (mkBitStream [x07; x08; x09] 1 0 0)
                    (mkBitStream [x07; x08; x09] 1 0 0) 8 eq_refl)).
Defined.

(** [getNextUInt16BE] succeeds exactly when the two bytes at the cursor
    are in the buffer, the last byte included, and never changes the
    stream. *)
Theorem getNextUInt16BE_succeeds_iff (s : BitStream) :
  (is_ok (getNextUInt16BE s) = true <->
   0 <= position s /\ position s + 2 <= length_ s) /\
  (forall v s', getNextUInt16BE s = Ok (v, s') ->
     s' = s /\ v = 256 * byte_at s (position s) + byte_at s (position s + 1)).
Proof.
  unfold getNextUInt16BE, super_readUInt16BE, length_.
  pose proof (index_is_Some (bytes s) (position s)) as H0.
  pose proof (index_is_Some (bytes s) (position s + 1)) as H1.
  split.
  - destruct (index (bytes s) (position s)) as [b0 |] eqn:Hb0;
      destruct (index (bytes s) (position s + 1)) as [b1 |] eqn:Hb1; simpl.
    + split; [intros _ | reflexivity].
      pose proof (proj1 H0 ltac:(eauto)). pose proof (proj1 H1 ltac:(eauto)). lia.
    + split; [discriminate |]. intros Hin.
      destruct (proj2 H1 ltac:(lia)) as [x Hx]. discriminate.
    + split; [discriminate |]. intros Hin.
      destruct (proj2 H0 ltac:(lia)) as [x Hx]. discriminate.
    + split; [discriminate |]. intros Hin.
      destruct (proj2 H0 ltac:(lia)) as [x Hx]. discriminate.
  - intros v s'. unfold byte_at.
    destruct (index (bytes s) (position s)) as [b0 |];
      destruct (index (bytes s) (position s + 1)) as [b1 |]; simpl;
      try discriminate.
    intros [= <- <-]. split; [reflexivity | lia].
Qed.

(** the peek agrees with the read: whenever [readUInt16BE()] succeeds
    at the cursor, [getNextUInt16BE] before it returns the same value. *)
Theorem getNextUInt16BE_agrees_with_read (s s' : BitStream) (v : Z) :
  readUInt16BE None s = Ok (v, s') ->
  getNextUInt16BE s = Ok (v, s).
Proof.
  intros Hr. pose proof (readUInt16BE_value None s s' v Hr) as Hv. simpl in Hv.
  unfold readUInt16BE, readBytes in Hr. cbv zeta in Hr.
  destruct (_ >=? _); [discriminate |].
  destruct (readBytes_loop _ _ _ _ _ _ _) as [r |] eqn:Hloop; [| discriminate].
  change (Z.to_nat 2) with 2%nat in Hloop.
  read_one Hloop x0 Hx0. read_one Hloop x1 Hx1.
  simpl in Hx0, Hx1.
  replace (position s + -1 * (0 - 0)) with (position s) in Hx0 by lia.
  replace (position s + -1 * (0 - (0 + 1))) with (position s + 1) in Hx1 by lia.
  unfold getNextUInt16BE, super_readUInt16BE. rewrite Hx0, Hx1. simpl.
  rewrite Hv, (byte_at_index _ _ _ Hx0), (byte_at_index _ _ _ Hx1).
  do 2 f_equal. lia.
Qed.

Lemma getNextUInt16BE_agrees_with_read_witness :
  getNextUInt16BE (initial [x01; x02; x03]) = Ok (258, initial [x01; x02; x03]).
Proof.
  apply (getNextUInt16BE_agrees_with_read _ (mkBitStream [x01; x02; x03] 2 0 0)).
  reflexivity.
Defined.

(** a bit read that follows a cursor read skips the byte at the cursor:
    after [readBytes(n)] from a state with no bits pending, the next bit is
    the top bit of the byte at [position + n + 1]. *)
Theorem getNextBit_after_readBytes (n : Z) (le : bool) (s s1 s2 : BitStream) (v bit : Z) :
  byteCounter s = 0 ->
  readBytes n None le s = Ok (v, s1) ->
  getNextBit s1 = Ok (bit, s2) ->
  position s2 = position s + n + 1 /\
  bit = byte_at s (position s + n + 1) / 128.
Proof.
  intros Hc Hr Hbit.
  destruct (readBytes_frame _ _ _ _ _ _ Hr) as [Hb [_ [Hk Hp]]].
  unfold getNextBit in Hbit. rewrite Hk, Hc in Hbit. simpl in Hbit.
  destruct (position s1 + 1 >=? length_ s1); simpl in Hbit; [discriminate |].
  unfold super_readUInt8 in Hbit.
  destruct (index (bytes s1) (position s1 + 1)) as [b |] eqn:Hidx; simpl in Hbit;
    [| discriminate].
  injection Hbit as <- <-. simpl. rewrite Hp. split; [reflexivity |].
  rewrite Hb, Hp in Hidx. rewrite (byte_at_index _ _ _ Hidx).
  apply (sar_7_byte _ (byte_val_range b)).
Qed.

Lemma getNextBit_after_readBytes_witness :
  readBytes 1 None false (initial [x01; xff; x80; x00]) =
    Ok (1, mkBitStream [x01; xff; x80; x00] 1 0 0) /\
  getNextBit (mkBitStream [x01; xff; x80; x00] 1 0 0) =
    Ok (1, mkBitStream [x01; xff; x80; x00] 2 0 7) /\
  position (mkBitStream [x01; xff; x80; x00] 2 0 7) =
    position (initial [x01; xff; x80; x00]) + 1 + 1 /\
  1 = byte_at (initial [x01; xff; x80; x00]) (position (initial [x01; xff; x80; x00]) + 1 + 1) / 128.
Proof.
  split; [reflexivity |]. split; [reflexivity |].
  exact (getNextBit_after_readBytes 1 false (initial [x01; xff; x80; x00])
           (mkBitStream [x01; xff; x80; x00] 1 0 0)
           (mkBitStream [x01; xff; x80; x00] 2 0 7) 1 1 eq_refl eq_refl eq_refl).
Defined.

End BitStreamValues.

(** ** Markers: lengths and the APP0 segment *)

Section MarkerLengths.

Import Markers.

Lemma Buffer_at_range (b : list byte) (i : Z) : 0 <= Buffer_at b i < 256.
Proof.
  unfold Buffer_at. destruct (index b i) as [x |]; [apply byte_val_range | lia].
Qed.

(** The base constructor succeeds on every buffer.  The marker reports 2
    for a buffer of fewer than four bytes and otherwise the big-endian
    value of the bytes 2 and 3 plus 2, the four-byte buffer included; its
    length is between 2 and 65537, and it keeps the name, the code and the
    bytes it was given. *)
Theorem JPGMarker_length_field (nm : string) (c : Z) (buf : list byte) :
  exists m,
    JPGMarker_new nm c buf = Ok m /\
    markerLength m =
      (if (List.length buf <? 4)%nat then 2 else declared_length buf + 2) /\
    2 <= markerLength m <= 65537 /\
    buffer m = buf /\ name m = nm /\ code m = c.
Proof.
  eexists. split; [apply JPGMarker_new_total |].
  unfold markerLength, declared_length. simpl.
  pose proof (Buffer_at_range buf 2). pose proof (Buffer_at_range buf 3).
  destruct (Z.geb_spec (Buffer_length buf) 4) as [Hge | Hlt];
    unfold Buffer_length in *.
  - destruct (Nat.ltb_spec (List.length buf) 4); [lia |]. repeat split; lia.
  - destruct (Nat.ltb_spec (List.length buf) 4); [| lia]. repeat split; lia.
Qed.

(** An APP0 marker cannot be built from fewer than 18 bytes: one of the
    fixed-offset reads of [decodeSync] falls outside the buffer and the
    constructor throws Buffer's [RangeError]. *)
Theorem JPEG_APP0Marker_needs_18_bytes (buf : list byte) :
  (List.length buf < 18)%nat ->
  JPEG_APP0Marker_new buf = Throw RangeError.
Proof.
  intros Hlen. unfold JPEG_APP0Marker_new. rewrite JPGMarker_new_total. simpl.
  unfold JPEG_APP0Marker_decodeSync. cbn [app0_marker buffer].
  assert (Hl : Buffer_length buf < 18) by (unfold Buffer_length; lia).
  destruct (Z.lt_ge_cases (Buffer_length buf) (9 + 2)) as [H1 | H1].
  { rewrite Buffer_readUInt16BE_outside by lia. reflexivity. }
  rewrite Buffer_readUInt16BE_inside by lia. simpl.
  destruct (Z.le_gt_cases (Buffer_length buf) 11) as [H2 | H2].
  { rewrite Buffer_readUInt8_outside by lia. reflexivity. }
  rewrite Buffer_readUInt8_inside by lia. simpl.
  destruct (Z.lt_ge_cases (Buffer_length buf) (12 + 2)) as [H3 | H3].
  { rewrite Buffer_readUInt16BE_outside by lia. reflexivity. }
  rewrite Buffer_readUInt16BE_inside by lia. simpl.
  destruct (Z.lt_ge_cases (Buffer_length buf) (14 + 2)) as [H4 | H4].
  { rewrite Buffer_readUInt16BE_outside by lia. reflexivity. }
  rewrite Buffer_readUInt16BE_inside by lia. simpl.
  destruct (Z.le_gt_cases (Buffer_length buf) 16) as [H5 | H5].
  { rewrite Buffer_readUInt8_outside by lia. reflexivity. }
  rewrite Buffer_readUInt8_inside by lia. simpl.
  rewrite Buffer_readUInt8_outside by lia. reflexivity.
Qed.

Lemma JPEG_APP0Marker_needs_18_bytes_witness :
  JPEG_APP0Marker_new
    [xff; xe0; x00; x10; x4a; x46; x49; x46; x00; x01; x01; x00; x00; x48; x00; x48;
     x00] = Throw RangeError.
Proof.
  apply JPEG_APP0Marker_needs_18_bytes. simpl. lia.
Defined.

End MarkerLengths.

Section App0Decode.

Import Markers.

(** The loop over the thumbnail palette, when every byte it reads is
    inside the buffer: [cnt] triplets from number [k0] on. *)
Lemma rgb_loop_reads (b : list byte) (bound : Z) (cnt : nat) :
  forall (fuel k0 : nat) (acc : list (Z * Z * Z)),
    (cnt <= fuel)%nat ->
    bound <= 18 + 3 * Z.of_nat (k0 + cnt) ->
    (forall j, (j < cnt)%nat -> 18 + 3 * Z.of_nat (k0 + j) < bound) ->
    18 + 3 * Z.of_nat (k0 + cnt) <= Buffer_length b ->
    rgb_loop fuel bound (18 + 3 * Z.of_nat k0) b acc =
    Ok (acc ++ map (triplet_at b) (seq k0 cnt)).
Proof.
  induction cnt as [| cnt IH]; intros fuel k0 acc Hfuel Hend Hin Hlen.
  - rewrite Nat.add_0_r in Hend. simpl. rewrite app_nil_r.
    destruct fuel as [| fuel]; simpl; [reflexivity |].
    destruct (Z.ltb_spec (18 + 3 * Z.of_nat k0) bound); [lia | reflexivity].
  - destruct fuel as [| fuel]; [lia |]. simpl rgb_loop.
    pose proof (Hin 0%nat ltac:(lia)) as H0. rewrite Nat.add_0_r in H0.
    destruct (Z.ltb_spec (18 + 3 * Z.of_nat k0) bound); [| lia].
    rewrite (Buffer_readUInt8_inside b (18 + 3 * Z.of_nat k0)) by lia. simpl.
    rewrite (Buffer_readUInt8_inside b (18 + 3 * Z.of_nat k0 + 1)) by lia. simpl.
    rewrite (Buffer_readUInt8_inside b (18 + 3 * Z.of_nat k0 + 2)) by lia. simpl.
    replace (18 + 3 * Z.of_nat k0 + 3) with (18 + 3 * Z.of_nat (S k0)) by lia.
    rewrite IH.
    + rewrite <- app_assoc. reflexivity.
    + lia.
    + replace (S k0 + cnt)%nat with (k0 + S cnt)%nat by lia. exact Hend.
    + intros j Hj. replace (S k0 + j)%nat with (k0 + S j)%nat by lia.
      apply Hin. lia.
    + replace (S k0 + cnt)%nat with (k0 + S cnt)%nat by lia. exact Hlen.
Qed.

Lemma triplet_count_bounds (declared : Z) :
  declared <= 18 + 3 * Z.of_nat (triplet_count declared) /\
  (forall j, (j < triplet_count declared)%nat -> 18 + 3 * Z.of_nat j < declared) /\
  (triplet_count declared <= Z.to_nat (declared - 18))%nat.
Proof.
  unfold triplet_count.
  pose proof (Z.div_mod (declared - 18 + 2) 3 ltac:(lia)) as Hdm.
  pose proof (Z.mod_pos_bound (declared - 18 + 2) 3 ltac:(lia)) as Hmod.
  set (q := (declared - 18 + 2) / 3) in *.
  set (r := (declared - 18 + 2) mod 3) in *.
  repeat split.
  - lia.
  - intros j Hj. lia.
  - lia.
Qed.

(** When the buffer holds the 18 header bytes and every thumbnail triplet
    the declared length calls for, as a complete APP0 segment does, the
    constructor succeeds and the marker holds: as its length the declared
    length plus 2; the version, densities and thumbnail size found at the
    offsets 9 to 17, two-byte fields most significant byte first; and one
    RGB triplet for every started group of three bytes between byte 18 and
    the declared length. *)
Theorem JPEG_APP0Marker_decodes (buf : list byte) :
  18 + 3 * Z.of_nat (triplet_count (declared_length buf)) <= Z.of_nat (List.length buf) ->
  JPEG_APP0Marker_new buf =
  Ok (mkAPP0
        (mkJPGMarker "APPn - Applicaion Marker" APP0_MARKER (declared_length buf + 2) buf)
        "JFIF"
        (256 * Buffer_at buf 9 + Buffer_at buf 10)
        (Buffer_at buf 11)
        (256 * Buffer_at buf 12 + Buffer_at buf 13)
        (256 * Buffer_at buf 14 + Buffer_at buf 15)
        (Buffer_at buf 16)
        (Buffer_at buf 17)
        (map (triplet_at buf) (seq 0 (triplet_count (declared_length buf))))).
Proof.
  set (declared := declared_length buf). intros Hlen.
  assert (Hs : 18 <= Buffer_length buf) by (unfold Buffer_length; lia).
  unfold JPEG_APP0Marker_new. rewrite JPGMarker_new_total. simpl.
  destruct (Z.geb_spec (Buffer_length buf) 4); [| lia].
  fold declared.
  unfold JPEG_APP0Marker_decodeSync. cbn [app0_marker app0_identifier rgb_n buffer length].
  rewrite (Buffer_readUInt16BE_inside buf 9) by lia. simpl.
  rewrite (Buffer_readUInt8_inside buf 11) by lia. simpl.
  rewrite (Buffer_readUInt16BE_inside buf 12) by lia. simpl.
  rewrite (Buffer_readUInt16BE_inside buf 14) by lia. simpl.
  rewrite (Buffer_readUInt8_inside buf 16) by lia. simpl.
  rewrite (Buffer_readUInt8_inside buf 17) by lia. simpl.
  replace (declared + 2 - 2) with declared by lia.
  destruct (triplet_count_bounds declared) as [Hend [Hin Hfuel]].
  change 18 with (18 + 3 * Z.of_nat 0) at 2.
  rewrite (rgb_loop_reads buf declared (triplet_count declared)); try assumption.
  reflexivity.
Qed.

(** The theorem on two complete segments: the 18 bytes of a JFIF header
    without thumbnail, and 21 bytes with one palette entry. *)
Lemma JPEG_APP0Marker_decodes_witness :
  (exists m,
     JPEG_APP0Marker_new
       [xff; xe0; x00; x10; x4a; x46; x49; x46; x00; x01; x02; x01; x00; x48; x00; x60;
        x00; x00] = Ok m /\
     version m = 258 /\ units m = 1 /\ x_density m = 72 /\ y_density m = 96 /\
     rgb_n m = [] /\ markerLength (app0_marker m) = 18) /\
  (exists m,
     JPEG_APP0Marker_new
       [xff; xe0; x00; x13; x4a; x46; x49; x46; x00; x01; x02; x01; x00; x48; x00; x60;
        x01; x01; x0a; x0b; x0c] = Ok m /\
     version m = 258 /\ units m = 1 /\ x_density m = 72 /\ y_density m = 96 /\
     rgb_n m = [(10, 11, 12)] /\ markerLength (app0_marker m) = 21).
Proof.
  split.
  - eexists. split.
    + apply JPEG_APP0Marker_decodes. vm_compute. discriminate.
    + vm_compute. repeat split.
  - eexists. split.
    + apply JPEG_APP0Marker_decodes. vm_compute. discriminate.
    + vm_compute. repeat split.
Defined.

End App0Decode.

(** ** The table aggregator: what a run keeps *)

Section AggregatorInvariants.

Import Markers.

Context {T : Type} `{JPG_TableMarker T}.
Variable markerConstructor : list byte -> result T.

(** Whatever one registration keeps, the loop keeps, and so does a run
    that ends in an error. *)
Lemma addMarker_loop_keeps (P : Aggregator T -> Prop) :
  (forall agg m, P agg ->
     P (mkAggregator (<[identifier m := m]> (markers agg)) (size agg + 1))) ->
  forall fuel bbuffer agg len current_pos start_buffer agg' r,
    P agg ->
    addMarker_loop markerConstructor fuel bbuffer agg len current_pos start_buffer
      = Some (agg', r) ->
    P agg'.
Proof.
  intros Hstep. induction fuel as [| fuel IH];
    intros bbuffer agg len pos sb agg' r HP; simpl.
  - destruct (len >? 0); [discriminate |]. intros [= <- _]. exact HP.
  - destruct (len >? 0); [| intros [= <- _]; exact HP].
    destruct (markerConstructor sb) as [m | e]; [| intros [= <- _]; exact HP].
    apply IH. apply Hstep. exact HP.
Qed.

Lemma addMarker_keeps (P : Aggregator T -> Prop) :
  (forall agg m, P agg ->
     P (mkAggregator (<[identifier m := m]> (markers agg)) (size agg + 1))) ->
  forall fuel agg buf agg' r,
    P agg -> addMarker markerConstructor fuel agg buf = Some (agg', r) -> P agg'.
Proof.
  intros Hstep fuel agg buf agg' r HP. unfold addMarker.
  destruct (Buffer_readUInt16BE (Buffer_from buf) 2) as [v | e].
  - apply addMarker_loop_keeps; assumption.
  - intros [= <- _]. exact HP.
Qed.

(** [addMarker] never frees a slot and never lowers the counter, also
    when it ends in an error: what was registered before the failure stays
    registered. *)
Theorem addMarker_never_removes (fuel : nat) (agg agg' : Aggregator T)
    (buf : list byte) (r : result Z) :
  addMarker markerConstructor fuel agg buf = Some (agg', r) ->
  dom (markers agg) ⊆ dom (markers agg') /\ size agg <= size agg'.
Proof.
  apply (addMarker_keeps
           (fun a => dom (markers agg) ⊆ dom (markers a) /\ size agg <= size a)).
  - intros a m [Hdom Hsize]. simpl. split; [| lia].
    rewrite dom_insert. set_solver.
  - split; [reflexivity | lia].
Qed.

Lemma addMarker_keeps_invariant (fuel : nat) (agg agg' : Aggregator T)
    (buf : list byte) (r : result Z) :
  keyed_by_identifier agg ->
  slots_counted agg ->
  addMarker markerConstructor fuel agg buf = Some (agg', r) ->
  keyed_by_identifier agg' /\ slots_counted agg'.
Proof.
  intros Hkey Hcount.
  apply (addMarker_keeps (fun a => keyed_by_identifier a /\ slots_counted a));
    [| split; assumption].
  intros a m [Hk Hc]. unfold keyed_by_identifier, slots_counted in *. simpl. split.
  - intros k m' Hlook.
    destruct (decide (identifier m = k)) as [<- | Hne].
    + rewrite lookup_insert_eq in Hlook. congruence.
    + rewrite lookup_insert_ne in Hlook by exact Hne. eauto.
  - destruct (markers a !! identifier m) as [old |] eqn:Hold.
    + rewrite map_size_insert_Some by eauto. lia.
    + rewrite map_size_insert_None by exact Hold. lia.
Qed.

(** [addMarker] keeps the aggregator well formed: every marker is
    stored under its own identifier, and [nofMarkers] is not below the
    number of occupied slots. *)
Theorem addMarker_keeps_wellformed (fuel : nat) (agg agg' : Aggregator T)
    (buf : list byte) (r : result Z) :
  keyed_by_identifier agg ->
  slots_counted agg ->
  addMarker markerConstructor fuel agg buf = Some (agg', r) ->
  keyed_by_identifier agg' /\ slots_counted agg'.
Proof. apply addMarker_keeps_invariant. Qed.

(** after a run on a fresh aggregator, [getMarker] either throws
    [NoSuchRecordKey] or returns a marker whose identifier is the key asked
    for. *)
Theorem getMarker_after_addMarker (fuel : nat) (agg' : Aggregator T)
    (buf : list byte) (r : result Z) (k : Z) :
  addMarker markerConstructor fuel empty_aggregator buf = Some (agg', r) ->
  getMarker agg' k = Throw NoSuchRecordKey \/
  exists m, getMarker agg' k = Ok m /\ identifier m = k.
Proof.
  intros Hrun.
  destruct (addMarker_keeps_invariant fuel empty_aggregator agg' buf r) as [Hkey _].
  - intros k' m Hlook. simpl in Hlook. rewrite lookup_empty in Hlook. discriminate.
  - unfold slots_counted. simpl. rewrite map_size_empty. lia.
  - exact Hrun.
  - unfold getMarker. destruct (markers agg' !! k) as [m |] eqn:Hlook; eauto.
Qed.

Lemma addMarker_loop_position (fuel : nat) (bbuffer : list byte) (agg : Aggregator T)
    (len current_pos : Z) (start_buffer : list byte) (agg' : Aggregator T) (pos : Z) :
  addMarker_loop markerConstructor fuel bbuffer agg len current_pos start_buffer
    = Some (agg', Ok pos) ->
  current_pos + len <= pos /\ (len <= 0 -> pos = current_pos).
Proof.
  revert agg len current_pos start_buffer.
  induction fuel as [| fuel IH]; intros agg len pos0 sb; simpl.
  - destruct (Z.gtb_spec len 0); [discriminate |]. intros [= _ <-]. lia.
  - destruct (Z.gtb_spec len 0); [| intros [= _ <-]; lia].
    destruct (markerConstructor sb) as [m | e]; [| discriminate].
    intros Hrun. apply IH in Hrun. lia.
Qed.

Lemma addMarker_reads_length (fuel : nat) (agg : Aggregator T) (buf : list byte) :
  (4 <= List.length buf)%nat ->
  addMarker markerConstructor fuel agg buf =
  addMarker_loop markerConstructor fuel buf agg (declared_length buf - 2) 4
                 (Buffer_subarray buf 4).
Proof.
  intros Hlen. unfold addMarker, Buffer_from. cbv zeta.
  rewrite Buffer_readUInt16BE_inside by (unfold Buffer_length; lia).
  reflexivity.
Qed.

(** The position [addMarker] returns is never short of the end the
    segment declares: it is at least the length field plus 2.  On a buffer
    that has its length field and declares 2 or less, [addMarker] returns
    4 without building a sub-table and leaves the aggregator untouched. *)
Theorem addMarker_returns_past_declared_end (agg : Aggregator T) (buf : list byte) :
  (forall fuel agg' pos,
     addMarker markerConstructor fuel agg buf = Some (agg', Ok pos) ->
     declared_length buf + 2 <= pos) /\
  ((4 <= List.length buf)%nat ->
   declared_length buf <= 2 ->
   forall fuel, addMarker markerConstructor fuel agg buf = Some (agg, Ok 4)).
Proof.
  split.
  - intros fuel agg' pos Hrun.
    destruct (Nat.le_gt_cases 4 (List.length buf)) as [Hlen | Hlen].
    + rewrite addMarker_reads_length in Hrun by exact Hlen.
      apply addMarker_loop_position in Hrun. lia.
    + unfold addMarker, Buffer_from in Hrun. cbv zeta in Hrun.
      rewrite Buffer_readUInt16BE_outside in Hrun by (unfold Buffer_length; lia).
      discriminate.
  - intros Hlen Hsmall fuel. rewrite addMarker_reads_length by exact Hlen.
    destruct fuel as [| fuel]; simpl;
      destruct (Z.gtb_spec (declared_length buf - 2) 0); try lia; reflexivity.
Qed.

(** A buffer of fewer than four bytes has no length field to read:
    [addMarker] throws Buffer's [RangeError] before any sub-table is built
    and the aggregator is as it was. *)
Theorem addMarker_short_buffer (fuel : nat) (agg : Aggregator T) (buf : list byte) :
  (List.length buf < 4)%nat ->
  addMarker markerConstructor fuel agg buf = Some (agg, Throw RangeError).
Proof.
  intros Hlen. unfold addMarker, Buffer_from. cbv zeta.
  rewrite Buffer_readUInt16BE_outside by (unfold Buffer_length; lia).
  reflexivity.
Qed.

End AggregatorInvariants.

Section AggregatorInvariantsWitnesses.

Import Markers.

Lemma addMarker_keeps_wellformed_witness :
  exists agg',
    addMarker PairTable_new 3 empty_aggregator three_tables_segment = Some (agg', Ok 10) /\
    keyed_by_identifier agg' /\ slots_counted agg'.
Proof.
  eexists. split; [vm_compute; reflexivity |].
  apply (addMarker_keeps_wellformed PairTable_new 3 empty_aggregator _
           three_tables_segment (Ok 10)).
  - intros k m Hlook. simpl in Hlook. rewrite lookup_empty in Hlook. discriminate.
  - unfold slots_counted. simpl. rewrite map_size_empty. lia.
  - vm_compute. reflexivity.
Defined.

Lemma addMarker_never_removes_witness :
  exists agg',
    addMarker PairTable_new 3 empty_aggregator three_tables_segment = Some (agg', Ok 10) /\
    size (@empty_aggregator PairTable) <= size agg'.
Proof.
  eexists. split; [vm_compute; reflexivity |].
  apply (addMarker_never_removes PairTable_new 3 empty_aggregator _
           three_tables_segment (Ok 10)).
  vm_compute. reflexivity.
Defined.

Lemma getMarker_after_addMarker_witness :
  exists agg',
    addMarker PairTable_new 3 empty_aggregator three_tables_segment = Some (agg', Ok 10) /\
    (getMarker agg' 1 = Throw NoSuchRecordKey \/
     exists m, getMarker agg' 1 = Ok m /\ identifier m = 1).
Proof.
  eexists. split; [vm_compute; reflexivity |].
  apply (getMarker_after_addMarker PairTable_new 3 _ three_tables_segment (Ok 10)).
  vm_compute. reflexivity.
Defined.

Lemma addMarker_returns_past_declared_end_witness :
  declared_length three_tables_segment + 2 <= 10 /\
  addMarker PairTable_new 0 empty_aggregator [xff; xc4; x00; x02] =
    Some (empty_aggregator, Ok 4).
Proof.
  split.
  - destruct (addMarker PairTable_new 3 empty_aggregator three_tables_segment)
      as [[agg' r] |] eqn:Hrun; [| vm_compute in Hrun; discriminate].
    assert (Hr : r = Ok 10) by (vm_compute in Hrun; congruence).
    subst r.
    exact (proj1 (addMarker_returns_past_declared_end PairTable_new empty_aggregator
                    three_tables_segment) 3%nat agg' 10 Hrun).
  - apply (proj2 (addMarker_returns_past_declared_end PairTable_new empty_aggregator
                    [xff; xc4; x00; x02])).
    + simpl. lia.
    + vm_compute. discriminate.
Defined.

Lemma addMarker_short_buffer_witness :
  addMarker PairTable_new 5 empty_aggregator [xff; xc4; x00] =
  Some (empty_aggregator, Throw RangeError).
Proof. apply addMarker_short_buffer. simpl. lia. Defined.

End AggregatorInvariantsWitnesses.

(** ** Huffman nodes: children, insertion and decoding *)

Section HuffmanNodes.

(** Closes [Forall is_bit] on a literal list of bits. *)
Ltac all_bits :=
  repeat (constructor; [first [left; reflexivity | right; reflexivity] |]);
  constructor.

Lemma setNextNode_0 (l r : option HuffmanNode) (s : value) :
  setNextNode (mkNode l r s) 0 =
  Ok (mkNode (Some (match l with Some c => c | None => new_node end)) r s).
Proof. destruct l; reflexivity. Qed.

Lemma setNextNode_1 (l r : option HuffmanNode) (s : value) :
  setNextNode (mkNode l r s) 1 =
  Ok (mkNode l (Some (match r with Some c => c | None => new_node end)) s).
Proof. destruct r; reflexivity. Qed.

Lemma invalid_bit (bit : Z) : ~ is_bit bit -> validateInput bit = Throw InvalidInput.
Proof.
  intros Hbit. unfold validateInput.
  destruct (Z.ltb_spec bit 0); [reflexivity |].
  destruct (Z.gtb_spec bit 1); [reflexivity |].
  exfalso. apply Hbit. unfold is_bit. lia.
Qed.

(** For a bit 0 or 1, [setNextNode] makes sure the child for the bit
    exists and touches nothing else: afterwards [getNextNode] finds a child,
    which is the old one if there was one and a fresh node otherwise; the
    symbol and the other child are as before, and a second call changes
    nothing. *)
Theorem setNextNode_ensures_child (n : HuffmanNode) (bit : Z) :
  is_bit bit ->
  exists n1 child,
    setNextNode n bit = Ok n1 /\
    getNextNode n1 bit = Ok (Some child) /\
    (getNextNode n bit = Ok (Some child) \/
     (getNextNode n bit = Ok None /\ child = new_node)) /\
    getNextNode n1 (1 - bit) = getNextNode n (1 - bit) /\
    symbol n1 = symbol n /\
    setNextNode n1 bit = Ok n1.
Proof.
  destruct n as [l r s]. intros [-> | ->].
  - rewrite setNextNode_0. destruct l as [c |]; eexists; eexists;
      repeat split; try reflexivity; auto.
  - rewrite setNextNode_1. destruct r as [c |]; eexists; eexists;
      repeat split; try reflexivity; auto.
Qed.

Lemma setNextNode_ensures_child_witness :
  exists n1 child,
    setNextNode new_node 1 = Ok n1 /\
    getNextNode n1 1 = Ok (Some child) /\
    setNextNode n1 1 = Ok n1.
Proof.
  destruct (setNextNode_ensures_child new_node 1 ltac:(right; reflexivity))
    as [n1 [child [H1 [H2 [_ [_ [_ H3]]]]]]].
  exists n1, child. repeat split; assumption.
Defined.

(** For an integer other than 0 and 1, [setNextNode] and [getNextNode]
    throw [InvalidInput]. *)
Theorem other_integer_bit_throws (n : HuffmanNode) (bit : Z) :
  bit <> 0 -> bit <> 1 ->
  setNextNode n bit = Throw InvalidInput /\ getNextNode n bit = Throw InvalidInput.
Proof.
  intros H0 H1. unfold setNextNode, getNextNode.
  rewrite (invalid_bit bit) by (intros [? | ?]; contradiction).
  split; reflexivity.
Qed.

Lemma other_integer_bit_throws_witness :
  setNextNode new_node 2 = Throw InvalidInput /\
  getNextNode new_node (-1) = Throw InvalidInput.
Proof.
  split.
  - apply (other_integer_bit_throws new_node 2); lia.
  - apply (other_integer_bit_throws new_node (-1)); lia.
Defined.

Lemma decode_walk_lookup (path : list Z) (n : HuffmanNode) :
  Forall is_bit path ->
  decode_walk n path =
  Ok (match node_at n path with
      | Some final => leaf_symbol final
      | None => Null
      end).
Proof.
  revert n. induction path as [| bit path IH]; intros n Hbits; simpl.
  - unfold leaf_symbol, getSymbol. destruct (isLeaf n); reflexivity.
  - inversion Hbits as [| ? ? Hbit Hrest]; subst.
    rewrite (getNextNode_bit n bit Hbit). simpl.
    destruct (if bit =? 0 then left n else rigth n) as [c |]; [| reflexivity].
    apply IH. exact Hrest.
Qed.

(** [decode] on bits that are all 0 or 1 is a lookup: the symbol of the
    node the walk ends on when that node exists and is a leaf, [null]
    otherwise. *)
Theorem decode_walk_is_lookup (path : list Z) (n : HuffmanNode) :
  Forall is_bit path ->
  decode_walk n path =
  Ok (match node_at n path with
      | Some final => leaf_symbol final
      | None => Null
      end).
Proof. apply decode_walk_lookup. Qed.

Lemma decode_walk_is_lookup_witness :
  decode_walk (mkNode (Some (mkNode None None (Num 5))) None Null) [0] = Ok (Num 5) /\
  decode_walk (mkNode (Some (mkNode None None (Num 5))) None Null) [1; 0] = Ok Null.
Proof.
  split.
  - apply (decode_walk_is_lookup [0]). all_bits.
  - apply (decode_walk_is_lookup [1; 0]). all_bits.
Defined.

Lemma decode_walk_new_node (path : list Z) :
  Forall is_bit path -> decode_walk new_node path = Ok Null.
Proof.
  intros Hbits. rewrite decode_walk_lookup by exact Hbits.
  destruct path as [| bit path]; [reflexivity |]. simpl.
  destruct (bit =? 0); reflexivity.
Qed.

Lemma is_bit_dec (bit : Z) : {is_bit bit} + {~ is_bit bit}.
Proof.
  destruct (Z.eq_dec bit 0) as [-> | H0]; [left; left; reflexivity |].
  destruct (Z.eq_dec bit 1) as [-> | H1]; [left; right; reflexivity |].
  right. intros [? | ?]; contradiction.
Qed.

Lemma insert_path_cons_0 (l r : option HuffmanNode) (sy : value) (p : list Z) (s : value) :
  insert_path (mkNode l r sy) (0 :: p) s =
  match insert_path (match l with Some c => c | None => new_node end) p s with
  | Ok child' => Ok (mkNode (Some child') r sy)
  | Throw e => Throw e
  end.
Proof. destruct l; reflexivity. Qed.

Lemma insert_path_cons_1 (l r : option HuffmanNode) (sy : value) (p : list Z) (s : value) :
  insert_path (mkNode l r sy) (1 :: p) s =
  match insert_path (match r with Some c => c | None => new_node end) p s with
  | Ok child' => Ok (mkNode l (Some child') sy)
  | Throw e => Throw e
  end.
Proof. destruct r; reflexivity. Qed.

Lemma insert_path_cons_invalid (n : HuffmanNode) (bit : Z) (p : list Z) (s : value) :
  ~ is_bit bit -> insert_path n (bit :: p) s = Throw InvalidInput.
Proof.
  intros Hbit. simpl. unfold setNextNode. rewrite (invalid_bit bit Hbit). reflexivity.
Qed.

Lemma decode_walk_cons_0 (l r : option HuffmanNode) (sy : value) (q : list Z) :
  decode_walk (mkNode l r sy) (0 :: q) =
  match l with Some c => decode_walk c q | None => Ok Null end.
Proof. reflexivity. Qed.

Lemma decode_walk_cons_1 (l r : option HuffmanNode) (sy : value) (q : list Z) :
  decode_walk (mkNode l r sy) (1 :: q) =
  match r with Some c => decode_walk c q | None => Ok Null end.
Proof. reflexivity. Qed.

(** Insert, then look up: after a code path is inserted with a symbol,
    decoding that path returns the symbol ([null] for a symbol that is
    [null] or [undefined]), and decoding any other path of bits returns
    what it returned before. *)
Theorem insert_path_then_decode (p : list Z) (n n' : HuffmanNode) (s : value) :
  insert_path n p s = Ok n' ->
  decode_walk n' p = Ok (if not_nullish s then s else Null) /\
  (forall q, Forall is_bit q -> q <> p -> decode_walk n' q = decode_walk n q).
Proof.
  revert n n'. induction p as [| bit p IH]; intros n n'.
  - simpl. unfold setSymbol. destruct (truthy (symbol n)); [discriminate |].
    intros [= <-]. split.
    + simpl. unfold isLeaf, getSymbol. simpl. destruct (not_nullish s); reflexivity.
    + intros q Hq Hne. destruct q as [| b q]; [contradiction |].
      destruct n as [l r sy]. reflexivity.
  - destruct (is_bit_dec bit) as [Hbit | Hbit];
      [| rewrite insert_path_cons_invalid by exact Hbit; discriminate].
    destruct n as [l r sy]. destruct Hbit as [-> | ->].
    + rewrite insert_path_cons_0.
      destruct (insert_path _ p s) as [child' |] eqn:Hchild; [| discriminate].
      intros [= <-]. destruct (IH _ _ Hchild) as [Hdec Hframe].
      split; [rewrite decode_walk_cons_0; exact Hdec |].
      intros q Hq Hne. destruct q as [| b q]; [reflexivity |].
      inversion Hq as [| ? ? Hb Hrest]; subst. destruct Hb as [-> | ->].
      * rewrite !decode_walk_cons_0.
        rewrite Hframe by (try assumption; congruence).
        destruct l as [c |]; [reflexivity | apply decode_walk_new_node; assumption].
      * reflexivity.
    + rewrite insert_path_cons_1.
      destruct (insert_path _ p s) as [child' |] eqn:Hchild; [| discriminate].
      intros [= <-]. destruct (IH _ _ Hchild) as [Hdec Hframe].
      split; [rewrite decode_walk_cons_1; exact Hdec |].
      intros q Hq Hne. destruct q as [| b q]; [reflexivity |].
      inversion Hq as [| ? ? Hb Hrest]; subst. destruct Hb as [-> | ->].
      * reflexivity.
      * rewrite !decode_walk_cons_1.
        rewrite Hframe by (try assumption; congruence).
        destruct r as [c |]; [reflexivity | apply decode_walk_new_node; assumption].
Qed.

Lemma insert_path_then_decode_witness :
  decode_walk (mkNode None (Some (mkNode (Some (mkNode None None (Num 9))) None Null)) Null)
              [1; 0] = Ok (Num 9).
Proof.
  exact (proj1 (insert_path_then_decode [1; 0] new_node
                  (mkNode None (Some (mkNode (Some (mkNode None None (Num 9))) None Null))
                          Null)
                  (Num 9) eq_refl)).
Defined.

Lemma node_at_new_node (p : list Z) (final : HuffmanNode) :
  node_at new_node p = Some final -> symbol final = Null.
Proof.
  destruct p as [| bit p]; simpl.
  - intros [= <-]. reflexivity.
  - destruct (bit =? 0); discriminate.
Qed.

Lemma insert_path_failure (p : list Z) (n : HuffmanNode) (s : value) :
  Forall is_bit p ->
  (is_ok (insert_path n p s) = false <->
   exists final, node_at n p = Some final /\ truthy (symbol final) = true) /\
  (is_ok (insert_path n p s) = false -> insert_path n p s = Throw AlreadyExists).
Proof.
  revert n. induction p as [| bit p IH]; intros n Hbits.
  - simpl. unfold setSymbol. destruct (truthy (symbol n)) eqn:Ht; simpl.
    + split; [| reflexivity]. split; [eauto | reflexivity].
    + split; [| discriminate]. split; [discriminate |].
      intros [final [[= <-] Hf]]. congruence.
  - inversion Hbits as [| ? ? Hbit Hrest]; subst.
    destruct n as [l r sy]. destruct Hbit as [-> | ->].
    + rewrite insert_path_cons_0. simpl node_at.
      destruct l as [c |].
      * destruct (IH c Hrest) as [Hiff Herr].
        destruct (insert_path c p s) as [child' | e] eqn:Hchild; simpl in *.
        -- split; [exact Hiff | discriminate].
        -- split; [exact Hiff |]. intros _. rewrite (Herr eq_refl). reflexivity.
      * destruct (IH new_node Hrest) as [Hiff Herr].
        destruct (insert_path new_node p s) as [child' | e] eqn:Hchild; simpl in *.
        -- split; [| discriminate]. split; [discriminate |].
           intros [final [Hf _]]. discriminate.
        -- exfalso. destruct (proj1 Hiff eq_refl) as [final [Hat Htr]].
           rewrite (node_at_new_node _ _ Hat) in Htr. discriminate.
    + rewrite insert_path_cons_1. simpl node_at.
      destruct r as [c |].
      * destruct (IH c Hrest) as [Hiff Herr].
        destruct (insert_path c p s) as [child' | e] eqn:Hchild; simpl in *.
        -- split; [exact Hiff | discriminate].
        -- split; [exact Hiff |]. intros _. rewrite (Herr eq_refl). reflexivity.
      * destruct (IH new_node Hrest) as [Hiff Herr].
        destruct (insert_path new_node p s) as [child' | e] eqn:Hchild; simpl in *.
        -- split; [| discriminate]. split; [discriminate |].
           intros [final [Hf _]]. discriminate.
        -- exfalso. destruct (proj1 Hiff eq_refl) as [final [Hat Htr]].
           rewrite (node_at_new_node _ _ Hat) in Htr. discriminate.
Qed.

(** An insertion along bits that are all 0 or 1 fails exactly when the
    node at the end of the path exists and holds a symbol that is a number
    other than 0; the error is then [AlreadyExists]. *)
Theorem insert_path_fails_iff (p : list Z) (n : HuffmanNode) (s : value) :
  Forall is_bit p ->
  (is_ok (insert_path n p s) = false <->
   exists final, node_at n p = Some final /\ truthy (symbol final) = true) /\
  (is_ok (insert_path n p s) = false -> insert_path n p s = Throw AlreadyExists).
Proof. apply insert_path_failure. Qed.

Lemma insert_path_fails_iff_witness :
  insert_path (mkNode (Some (mkNode None None (Num 5))) None Null) [0] (Num 6) =
  Throw AlreadyExists.
Proof.
  destruct (insert_path_fails_iff [0] (mkNode (Some (mkNode None None (Num 5))) None Null)
              (Num 6)) as [_ Herr].
  - all_bits.
  - apply Herr. reflexivity.
Defined.

Lemma push_codes_spec (iters : nat) (cs : list Z) (c : Z) :
  push_codes iters cs c =
  (cs ++ map (fun i => c + Z.of_nat i) (seq 0 iters), c + Z.of_nat iters).
Proof.
  revert cs c. induction iters as [| iters IH]; intros cs c.
  - simpl. rewrite app_nil_r. f_equal. lia.
  - simpl push_codes. rewrite IH. rewrite <- app_assoc. simpl.
    f_equal; [| lia]. f_equal. f_equal; [f_equal; lia |].
    rewrite <- seq_shift, map_map. apply map_ext. intros i. lia.
Qed.

(** [generateCodes] leaves the counts, the symbols and the root alone and
    extends [codes] length by length from the running code 0: a positive
    count appends that many consecutive codes starting at the running
    code, a count that is not positive appends the single placeholder -1
    and leaves the running code as it is; after either, the running code is
    shifted left by one.  The list so grows by one entry per code and one
    per placeholder. *)
Theorem generateCodes_appends (bits_arg : list Z) (t : JPEGHuffmanTree) :
  codes (generateCodes t bits_arg) = generateCodes_loop bits_arg (codes t) 0 /\
  bits (generateCodes t bits_arg) = bits t /\
  symbols (generateCodes t bits_arg) = symbols t /\
  root (generateCodes t bits_arg) = root t /\
  (forall cs c, generateCodes_loop [] cs c = cs) /\
  (forall count rest cs c,
     0 < count ->
     generateCodes_loop (count :: rest) cs c =
     generateCodes_loop rest
       (cs ++ map (fun i => c + Z.of_nat i) (seq 0 (Z.to_nat count)))
       (shl (c + count) 1)) /\
  (forall count rest cs c,
     count <= 0 ->
     generateCodes_loop (count :: rest) cs c =
     generateCodes_loop rest (cs ++ [-1]) (shl c 1)) /\
  length (codes (generateCodes t bits_arg)) = (length (codes t) + code_slots bits_arg)%nat.
Proof.
  repeat split.
  - intros count rest cs c Hpos. simpl.
    destruct (Z.gtb_spec count 0); [| lia].
    rewrite push_codes_spec. rewrite Z2Nat.id by lia. reflexivity.
  - intros count rest cs c Hneg. simpl.
    destruct (Z.gtb_spec count 0); [lia | reflexivity].
  - unfold generateCodes. simpl. generalize (codes t) as cs. generalize 0 as c.
    induction bits_arg as [| count rest IH]; intros c cs; simpl.
    + lia.
    + destruct (count >? 0).
      * rewrite push_codes_spec. rewrite IH, length_app, length_map, length_seq. lia.
      * rewrite IH, length_app. simpl. lia.
Qed.

Lemma generateCodes_appends_witness :
  generateCodes_loop [2; 0; 1] [] 0 =
    generateCodes_loop [0; 1] ([] ++ map (fun i => 0 + Z.of_nat i) (seq 0 (Z.to_nat 2)))
                       (shl (0 + 2) 1) /\
  generateCodes_loop [0; 1] [0; 1] 4 = generateCodes_loop [1] ([0; 1] ++ [-1]) (shl 4 1) /\
  codes (generateCodes new_tree [2; 0; 1]) = [0; 1; -1; 8].
Proof.
  destruct (generateCodes_appends [2; 0; 1] new_tree)
    as [Hcodes [_ [_ [_ [_ [Hpos [Hneg _]]]]]]].
  split; [apply Hpos; lia |]. split; [apply Hneg; lia |].
  rewrite Hcodes. reflexivity.
Defined.

Lemma code_bit_is_bit (curr_code : value) (i : Z) : is_bit (code_bit curr_code i).
Proof.
  unfold code_bit, band, is_bit. change (int32 1) with (Z.ones 1).
  rewrite Z.land_ones by lia.
  pose proof (Z.mod_pos_bound (int32 (sar match curr_code with Num c => c | _ => 0 end i))
                (2 ^ 1) ltac:(lia)).
  lia.
Qed.

Lemma code_path_bits (curr_code : value) (bit_len : nat) :
  Forall is_bit (code_path curr_code bit_len).
Proof.
  unfold code_path. induction (rev (seq 0 bit_len)) as [| i l IH]; simpl; constructor.
  - apply code_bit_is_bit.
  - exact IH.
Qed.

Lemma insert_codes_error (t : JPEGHuffmanTree) (bit_len : nat) (codes_index : Z)
    (iters : nat) (counter : Z) (n : HuffmanNode) (e : error) :
  insert_codes t bit_len codes_index iters counter n = Throw e -> e = AlreadyExists.
Proof.
  revert counter n. induction iters as [| iters IH]; intros counter n; simpl;
    [discriminate |].
  destruct (insert_path n _ _) as [n' | e'] eqn:Hins; simpl; [apply IH |].
  intros [= <-].
  match type of Hins with
  | insert_path _ ?p ?s = _ =>
      destruct (insert_path_failure p n s (code_path_bits _ bit_len)) as [_ Herr]
  end.
  rewrite Hins in Herr. specialize (Herr eq_refl). congruence.
Qed.

Lemma buildHuffmanTree_loop_error (t : JPEGHuffmanTree) (bits_left : list Z)
    (bits_idx : nat) (symbols_index codes_index : Z) (n : HuffmanNode) (e : error) :
  buildHuffmanTree_loop t bits_left bits_idx symbols_index codes_index n = Throw e ->
  e = AlreadyExists.
Proof.
  revert bits_idx symbols_index codes_index n.
  induction bits_left as [| count bs IH]; intros idx si ci n; simpl; [discriminate |].
  destruct (count =? 0); [apply IH |].
  destruct (insert_codes t _ _ _ _ n) as [n' | e1] eqn:Hins; simpl; [apply IH |].
  intros [= <-]. eapply insert_codes_error. exact Hins.
Qed.

(** Building a tree fails in one way only: [buildTree] never throws
    [InvalidInput] or a [TypeError], whatever counts and symbols it is
    given; if it throws, it is [AlreadyExists], a code path that ends on a
    node which already holds a symbol. *)
Theorem buildTree_only_AlreadyExists (t : JPEGHuffmanTree) (bits_arg symbols_arg : list Z)
    (e : error) :
  buildTree t bits_arg symbols_arg = Throw e -> e = AlreadyExists.
Proof.
  unfold buildTree, buildHuffmanTree.
  destruct (buildHuffmanTree_loop _ _ _ _ _ _) as [n | e'] eqn:Hloop;
    simpl; [discriminate |].
  intros [= <-]. eapply buildHuffmanTree_loop_error. exact Hloop.
Qed.

Lemma buildTree_only_AlreadyExists_witness :
  buildTree new_tree [3] [7; 8; 9] = Throw AlreadyExists.
Proof.
  destruct (buildTree new_tree [3] [7; 8; 9]) as [t | e] eqn:Hb.
  - vm_compute in Hb. discriminate.
  - f_equal. exact (buildTree_only_AlreadyExists new_tree [3] [7; 8; 9] e Hb).
Defined.

(** A second [setSymbol] on a node whose first symbol is a number other
    than 0 throws [AlreadyExists]. *)
Theorem setSymbol_second_call_throws (n n1 : HuffmanNode) (first : Z) (second : value) :
  first <> 0 ->
  setSymbol n (Num first) = Ok n1 ->
  setSymbol n1 second = Throw AlreadyExists.
Proof. apply setSymbol_twice_nonzero. Qed.

Lemma setSymbol_second_call_throws_witness :
  setSymbol (mkNode None None (Num 5)) (Num 6) = Throw AlreadyExists.
Proof.
  apply (setSymbol_second_call_throws new_node (mkNode None None (Num 5)) 5 (Num 6));
    [lia | reflexivity].
Defined.

End HuffmanNodes.

(** ** ToZigZag: the errors it can end in *)

Section ToZigZagErrors.







(** No block of a single row is ever produced: with one row and at least
    one column, or with no row at all, [ToZigZag] throws a [TypeError]
    whatever the values are. *)
Theorem ToZigZag_single_row_throws (values : list Z) (nr nc : Z) :
  Z.of_nat (length values) = nr * nc ->
  nr <= 0 \/ (nr = 1 /\ 1 <= nc) ->
  ToZigZag values nr nc = Throw TypeError.
Proof.
  intros Hlen Hrows. unfold ToZigZag.
  destruct (Z.eqb_spec (Z.of_nat (length values)) (nr * nc)) as [_ | Hne];
    [simpl | contradiction].
  destruct Hrows as [Hnone | [-> Hcols]].
  - replace (Z.to_nat nr) with 0%nat by lia. reflexivity.
  - replace (Z.min (1 - 1) (nc - 1)) with 0 by lia.
    replace (Z.to_nat (1 - 1 + (nc - 1) + 1)) with (S (Z.to_nat (nc - 1))) by lia.
    reflexivity.
Qed.

Lemma ToZigZag_single_row_throws_witness :
  ToZigZag [1; 2; 3] 1 3 = Throw TypeError.
Proof. apply ToZigZag_single_row_throws; [reflexivity | right; lia]. Defined.

End ToZigZagErrors.
